(** * Keep2Share-Downloader: a shallow embedding of the segment planner,
    the chunk fetcher, the assembler (src/main.py) and the link acquisition
    loop (src/k2s.py), with the properties of the design document. *)

From stdpp Require Import base gmap strings list pretty.
From Stdlib Require Import ZArith Lia Sorted Ascii.

Open Scope Z_scope.

(* ------------------------------------------------------------------ *)
(** ** Data model *)

(** Bytes of a file on disk. *)
Abbreviation bytes := (list Byte.byte).

(** The file system as seen by the program: path -> contents.
    [os.path.exists p] is [is_Some (fs !! p)], [os.path.getsize p] is the
    length of the contents, [os.remove p] is [delete p]. *)
Abbreviation fs := (gmap string bytes).

(** A chunk dictionary of [Downloader.start]:
    [{'id', 'start', 'end', 'size', 'filename'}]. *)
Record chunk := mk_chunk {
  c_id : Z;
  c_start : Z;
  c_end : Z;
  c_size : Z;
  c_filename : string
}.

(* ------------------------------------------------------------------ *)
(** ** Segment planner (main.py, [Downloader.start], step 5) *)

(** [str(i).zfill(3)] *)
Definition zfill3 (s : string) : string :=
  String.append
    (String.concat "" (List.repeat "0" (3 - String.length s)%nat)) s.

(** [os.path.join(a, b)] (POSIX) for a directory [a] that does not end
    in '/': an absolute [b] is returned as it is. *)
Definition is_abs (b : string) : bool :=
  match b with
  | String c _ => bool_decide (c = "/"%char)
  | EmptyString => false
  end.

Definition path_join (a b : string) : string :=
  if is_abs b then b else String.append a (String.append "/" b).

(** [os.path.join("tmp", f"{self.filename}.part{str(i).zfill(3)}")] *)
Definition part_name (filename : string) (i : Z) : string :=
  path_join "tmp"
    (String.append filename
      (String.append ".part" (zfill3 (pretty (Z.to_N i))))).

(** [math.ceil(total_size / self.split_size)]: the ceiling of the
    quotient, written with flooring division as [-((-a) // b)].
    Python evaluates the quotient in floating point; below 2^53 bytes the
    float quotient and the exact one have the same ceiling. *)
Definition ceil_div (a b : Z) : Z := - ((- a) / b).

(** The body of the [for i in range(num_splits)] loop. *)
Definition plan_chunk (filename : string) (total_size split_size i : Z)
    : chunk :=
  let start := i * split_size in
  let end_ := Z.min ((i + 1) * split_size - 1) (total_size - 1) in
  {| c_id := i; c_start := start; c_end := end_;
     c_size := end_ - start + 1; c_filename := part_name filename i |}.

(** Outcome of the planning step: a list of chunks, or the
    [ZeroDivisionError] raised by [total_size / self.split_size]. *)
Inductive plan_result :=
| Planned (cs : list chunk)
| ZeroDivisionError.

(** Step 5 of [Downloader.start]. [range(n)] is empty for [n <= 0]. *)
Definition plan (filename : string) (total_size split_size : Z)
    : plan_result :=
  if decide (split_size = 0) then ZeroDivisionError
  else
    let num_splits := ceil_div total_size split_size in
    Planned ((fun i : nat => plan_chunk filename total_size split_size
                                (Z.of_nat i))
             <$> seq 0 (Z.to_nat num_splits)).


(* ------------------------------------------------------------------ *)
(** ** Chunk fetcher (main.py, [Downloader._download_chunk]) *)

(** What one [requests.get(url, headers=..., stream=True, timeout=30)]
    attempt gives: a 2xx response whose body [data] is then streamed to
    the part file; an [HTTPError] raised by [r.raise_for_status()] with
    its status code; any other exception raised before the part file is
    opened (connection error, timeout, ...); or a 2xx response whose
    stream fails in [r.iter_content] after [open(chunk['filename'], 'wb')]
    has truncated the part file and [partial] has been written to it. *)
Inductive attempt_outcome :=
| AOk (data : bytes)
| AHttpError (status_code : Z)
| AException
| AStreamError (partial : bytes).

(** What the loop does, in order: a request at attempt [attempt], the
    part file opened with ['wb'] and left holding [data], a
    [time.sleep(wait_time)] of the rate-limited branch, or the
    [time.sleep(2)] of the generic exception branch. *)
Inductive dl_event :=
| EGet (attempt : nat)
| EWrite (data : bytes)
| ERateLimitSleep (secs : Z)
| ESleep (secs : Z).

(** How [_download_chunk] ends: [return] after writing [data], an
    exception raised out of it, or the [for] loop running out (the
    function then returns [None] without raising). *)
Inductive dl_result :=
| DlDone (data : bytes)
| DlRaised
| DlLoopEnded.

Definition max_retries : nat := 5.

(** [e.response.status_code in [429, 509, 503]] *)
Definition is_rate_limited (code : Z) : bool :=
  bool_decide (code = 429 \/ code = 509 \/ code = 503).

(** [for attempt in range(max_retries)], from [attempt] on with [left]
    iterations to go; [get attempt] is the outcome of that request. An
    exception in the stream is handled by the generic [except Exception]
    branch, after the part file has been written. *)
Fixpoint download_loop (get : nat -> attempt_outcome) (attempt left : nat)
    : list dl_event * dl_result :=
  match left with
  | O => ([], DlLoopEnded)
  | S left' =>
    let generic_exception (pre : list dl_event) :=
      if decide (attempt = max_retries - 1)%nat then (pre, DlRaised)
      else
        let '(tr, r) := download_loop get (S attempt) left' in
        (pre ++ ESleep 2 :: tr, r) in
    let '(tr, r) :=
      match get attempt with
      | AOk data => ([EWrite data], DlDone data)
      | AHttpError code =>
        if is_rate_limited code then
          let wait_time := (Z.of_nat attempt + 1) * 5 in
          let '(tr, r) := download_loop get (S attempt) left' in
          (ERateLimitSleep wait_time :: tr, r)
        else ([], DlRaised)
      | AException => generic_exception []
      | AStreamError partial => generic_exception [EWrite partial]
      end in
    (EGet attempt :: tr, r)
  end.

Definition download_chunk (get : nat -> attempt_outcome)
    : list dl_event * dl_result :=
  download_loop get 0 max_retries.

(** The requests made and the rate-limit delays slept, read off a run. *)
Fixpoint gets (tr : list dl_event) : list nat :=
  match tr with
  | [] => []
  | EGet a :: tr' => a :: gets tr'
  | _ :: tr' => gets tr'
  end.

(** The content the part file is left with: that of the last ['wb']
    open of the run, or [None] when no attempt opened it. *)
Fixpoint part_written (tr : list dl_event) : option bytes :=
  match tr with
  | [] => None
  | EWrite b :: tr' =>
    match part_written tr' with
    | Some b' => Some b'
    | None => Some b
    end
  | _ :: tr' => part_written tr'
  end.

Fixpoint rate_limit_delays (tr : list dl_event) : list Z :=
  match tr with
  | [] => []
  | ERateLimitSleep d :: tr' => d :: rate_limit_delays tr'
  | _ :: tr' => rate_limit_delays tr'
  end.

(* ------------------------------------------------------------------ *)
(** ** Resume check and download loop (main.py, [Downloader.start], step 6) *)

(** A submitted [executor.submit(self._download_chunk, url, chunk, pbar)]. *)
Abbreviation job := (string * chunk)%type.

(** [download_urls[chunk['id'] % len(download_urls)]]; [start] has
    returned before this point when [download_urls] is empty. *)
Definition pick_url (urls : list string) (c : chunk) : string :=
  nth (Z.to_nat (c_id c mod Z.of_nat (length urls))) urls "".

(** The [for chunk in chunks] loop: a part file of the planned size is
    skipped, a part file of another size is removed, and every chunk not
    skipped is submitted. The submitted jobs write only their own part
    files, so with distinct part names running them after the loop gives
    the same disk state as running them alongside it. *)
Fixpoint resume_check (urls : list string) (cs : list chunk) (d : fs)
    : fs * list job :=
  match cs with
  | [] => (d, [])
  | c :: cs' =>
    match d !! c_filename c with
    | Some b =>
      if decide (Z.of_nat (length b) = c_size c) then resume_check urls cs' d
      else
        let '(d', jobs) := resume_check urls cs' (delete (c_filename c) d) in
        (d', (pick_url urls c, c) :: jobs)
    | None =>
      let '(d', jobs) := resume_check urls cs' d in
      (d', (pick_url urls c, c) :: jobs)
    end
  end.



(* ------------------------------------------------------------------ *)
(** ** Assembler (main.py, [Downloader._assemble_file]) *)

Inductive asm_result :=
| AsmComplete
| AsmMissing (id : Z).

(** [for chunk in chunks]: append each existing part to the destination
    and remove it; stop at the first missing part. *)
Fixpoint assemble_loop (dest : string) (cs : list chunk) (d : fs)
    : fs * asm_result :=
  match cs with
  | [] => (d, AsmComplete)
  | c :: cs' =>
    match d !! c_filename c with
    | Some b =>
      let out := default [] (d !! dest) in
      assemble_loop dest cs' (delete (c_filename c) (<[dest := out ++ b]> d))
    | None => (d, AsmMissing (c_id c))
    end
  end.

(** [if os.path.exists(self.filename): os.remove(self.filename)], then
    [open(self.filename, 'wb')] creates it empty, then the loop. *)
Definition assemble_file (dest : string) (cs : list chunk) (d : fs)
    : fs * asm_result :=
  assemble_loop dest cs (<[dest := []]> (delete dest d)).


(* ------------------------------------------------------------------ *)
(** ** Link acquisition (k2s.py, [K2SAPI.generate_download_urls]) *)

(** The fields of a [getUrl] JSON answer that the code reads: [Some v]
    when the key is present with a value of the type the code expects (a
    string, an integer [time_wait]), [None] when it is absent. *)
Record api_resp := mk_resp {
  r_status : option string;
  r_message : option string;
  r_time_wait : option Z;
  r_free_download_key : option string;
  r_url : option string
}.

(** A [requests.post(...).json()] call: the decoded answer, or an
    exception (network error, timeout, undecodable body). *)
Inductive exch :=
| Json (r : api_resp)
| Raised.

(** The proxy candidates tried: [self.proxy_manager.get_all() if
    self.proxy_manager else [None]]; [None] is the direct path.
    [pm = None] means the downloader runs without a proxy manager. *)
Definition candidates (pm : option (list string)) : list (option string) :=
  match pm with
  | Some l => Some <$> l
  | None => [None]
  end.

(** A challenge state [(cd, cr)]: [captcha_data] holds challenge
    number [cd] and [captcha_response] the answer typed for challenge
    number [cr]. The initial [request_captcha] and [solve_captcha] run
    outside the [try]; the runs modelled are those where they succeed
    (challenge [0]), since an exception there leaves the function before
    any exchange. *)
Definition captcha := (nat * nat)%type.

(** The interactions of [generate_download_urls], in order:
    [request_captcha] plus [solve_captcha] for challenge number [ch]; a
    [request_captcha] that raised; a [request_captcha] that gave challenge
    [ch] followed by a [solve_captcha] that raised; a key exchange
    [getUrl] at attempt [n] through proxy [p] with challenge state [ch];
    the [time.sleep(wait_time)]; a URL generation [getUrl] through proxy
    [p]. *)
Inductive k2s_event :=
| ERequestCaptcha (ch : nat)
| ECaptchaRequestFailed
| ECaptchaUnsolved (ch : nat)
| EExchange (n : nat) (p : option string) (ch : captcha)
| EWait (secs : Z)
| EGenUrl (p : option string).

(** How the two statements after "Invalid captcha. Retrying..." go:
    both succeed; [self.request_captcha()] raises (so [captcha_data] is
    unchanged); or it returns and [self.solve_captcha(...)] raises (a
    missing ["captcha_url"], a failed image download, ...), so
    [captcha_data] is new and [captcha_response] is old. In both failing
    cases the [except Exception] handler continues the loop. *)
Inductive refresh_outcome :=
| RefreshOk
| RefreshRequestFailed
| RefreshSolveFailed.

Definition refresh_captcha (o : refresh_outcome) (ch : captcha)
    : list k2s_event * captcha :=
  let '(cd, cr) := ch in
  match o with
  | RefreshOk => ([ERequestCaptcha (S cd)], (S cd, S cd))
  | RefreshRequestFailed => ([ECaptchaRequestFailed], (cd, cr))
  | RefreshSolveFailed => ([ECaptchaUnsolved (S cd)], (S cd, cr))
  end.

(** How the [for proxy in proxies] loop ends: [break] with
    [working_link = True], [free_download_key] and [working_proxy];
    [return [resp['url']]]; [raise FileNotFoundError]; or running out of
    candidates. *)
Inductive loop_result :=
| LKey (key : option string) (p : option string)
| LUrl (u : string)
| LNotFound
| LExhausted.

(** [resp.get('status') == 'error'] and [resp.get('message', '')]. *)
Definition error_message (r : api_resp) : option string :=
  if decide (r_status r = Some "error") then Some (default "" (r_message r))
  else None.

Definition is_invalid_captcha (e : exch) : bool :=
  match e with
  | Json r => bool_decide (error_message r = Some "Invalid captcha code")
  | Raised => false
  end.

Definition is_not_found (e : exch) : bool :=
  match e with
  | Json r => bool_decide (error_message r = Some "File not found")
  | Raised => false
  end.

(** The key exchange loop. [ex n p ch] is the answer to the [n]-th
    exchange, sent through [p] with challenge state [ch]; [rf n] is how
    the challenge refresh after an invalid answer to the [n]-th exchange
    goes. Every [continue] moves on to the next element of [proxies]. A
    negative [wait_time] makes [time.sleep] raise [ValueError], which the
    [except Exception] handler turns into a [continue]. *)
Fixpoint key_loop (ex : nat -> option string -> captcha -> exch)
    (rf : nat -> refresh_outcome)
    (n : nat) (ch : captcha) (proxies : list (option string))
    : list k2s_event * loop_result :=
  match proxies with
  | [] => ([], LExhausted)
  | p :: ps =>
    let ev := EExchange n p ch in
    let continue_with (ch' : captcha) (extra : list k2s_event) :=
      let '(tr, r) := key_loop ex rf (S n) ch' ps in (ev :: extra ++ tr, r) in
    match ex n p ch with
    | Raised => continue_with ch []
    | Json resp =>
      match error_message resp with
      | Some msg =>
        if decide (msg = "Invalid captcha code") then
          let '(extra, ch') := refresh_captcha (rf n) ch in
          continue_with ch' extra
        else if decide (msg = "File not found") then ([ev], LNotFound)
        else continue_with ch []
      | None =>
        match r_time_wait resp with
        | Some wait_time =>
          if decide (60 < wait_time) then continue_with ch []
          else if decide (wait_time < 0) then continue_with ch []
          else ([ev; EWait wait_time], LKey (r_free_download_key resp) p)
        | None =>
          match r_url resp with
          | Some u => ([ev], LUrl u)
          | None =>
            match r_free_download_key resp with
            | Some k => ([ev], LKey (Some k) p)
            | None => continue_with ch []
            end
          end
        end
      end
    end
  end.

(** [for _ in range(count)]: one [getUrl] per iteration through the
    bound proxy; [gen i p key] is the answer to the [i]-th one. An answer
    with a non-empty [url] is kept. *)
Fixpoint gen_loop (gen : nat -> option string -> string -> exch)
    (key : string) (p : option string) (i left : nat)
    : list k2s_event * list string :=
  match left with
  | O => ([], [])
  | S left' =>
    let '(tr, urls) := gen_loop gen key p (S i) left' in
    let got :=
      match gen i p key with
      | Json r =>
        match r_url r with
        | Some u => if decide (u = "") then [] else [u]
        | None => []
        end
      | Raised => []
      end in
    (EGenUrl p :: tr, got ++ urls)
  end.

(** How [generate_download_urls] ends: a list of URLs (possibly empty),
    [FileNotFoundError], or the [K2SError] "Could not generate a download
    key with available proxies." *)
Inductive gen_result :=
| GUrls (urls : list string)
| GFileNotFound
| GNoKey.

(** [if not working_link or not free_download_key: raise K2SError(...)] *)
Definition generate_download_urls (pm : option (list string))
    (ex : nat -> option string -> captcha -> exch)
    (rf : nat -> refresh_outcome)
    (gen : nat -> option string -> string -> exch) (count : nat)
    : list k2s_event * gen_result :=
  let '(tr, r) := key_loop ex rf 0 (0, 0)%nat (candidates pm) in
  let tr := ERequestCaptcha 0 :: tr in
  match r with
  | LUrl u => (tr, GUrls [u])
  | LNotFound => (tr, GFileNotFound)
  | LExhausted => (tr, GNoKey)
  | LKey None _ => (tr, GNoKey)
  | LKey (Some key) p =>
    if decide (key = "") then (tr, GNoKey)
    else
      let '(tr', urls) := gen_loop gen key p 0 count in
      (tr ++ tr', GUrls urls)
  end.

(** Step 3 of [Downloader.start]: how the session continues. *)
Inductive session_step :=
| SNotAvailable   (* "Error: File not found during link generation." *)
| SLinkError      (* "Error generating links: ..." *)
| SNoUrls         (* "No download URLs generated." *)
| SContinue (urls : list string).

Definition start_links (r : gen_result) : session_step :=
  match r with
  | GFileNotFound => SNotAvailable
  | GNoKey => SLinkError
  | GUrls [] => SNoUrls
  | GUrls urls => SContinue urls
  end.

(* ------------------------------------------------------------------ *)
(** ** File info (k2s.py, [get_file_info], [get_name]; main.py step 1) *)

(** One element of [files] in a [getFilesInfo] answer. [f_is_available]
    is [None] when the key is absent or not a boolean. *)
Record file_entry := mk_file_entry {
  f_name : option string;
  f_is_available : option bool
}.

(** The fields of a [getFilesInfo] answer that the code reads. *)
Record files_info := mk_files_info {
  fi_status : option string;
  fi_files : list file_entry
}.

(** How a call ends: the file entry, [K2SError], or [FileNotFoundError]. *)
Inductive info_result :=
| InfoOk (f : file_entry)
| InfoK2SError
| InfoFileNotFound.

(** The body of the [try] in [get_file_info]; [None] is an exception of
    [requests.post(...).json()]. *)
Definition get_file_info_body (r : option files_info) : info_result :=
  match r with
  | None => InfoK2SError
  | Some r =>
    if decide (fi_status r = Some "success") then
      match fi_files r with
      | f :: _ =>
        if decide (f_is_available f = Some false) then InfoFileNotFound
        else InfoOk f
      | [] => InfoK2SError
      end
    else InfoK2SError
  end.

(** [except Exception as e: raise K2SError(...)]: every exception of the
    body, [FileNotFoundError] included, leaves as [K2SError]. *)
Definition get_file_info (r : option files_info) : info_result :=
  match get_file_info_body r with
  | InfoOk f => InfoOk f
  | InfoK2SError | InfoFileNotFound => InfoK2SError
  end.

(** [info.get('name') or 'unknown_file'] *)
Definition get_name (r : option files_info) : info_result + string :=
  match get_file_info r with
  | InfoOk f =>
    match f_name f with
    | Some n => if decide (n = "") then inr "unknown_file" else inr n
    | None => inr "unknown_file"
    end
  | e => inl e
  end.

(** Step 1 of [Downloader.start]: the target file name, or which of the
    two [except] branches stops the session. *)
Inductive info_step :=
| StepName (filename : string)
| StepNotFound      (* "Error: File not found on Keep2Share." *)
| StepInfoError.    (* "Error getting file info: ..." *)

Definition start_file_info (filename : option string) (r : option files_info)
    : info_step :=
  match filename with
  | Some n => if decide (n = "") then
                match get_name r with
                | inr n' => StepName n'
                | inl InfoFileNotFound => StepNotFound
                | inl _ => StepInfoError
                end
              else StepName n
  | None =>
    match get_name r with
    | inr n' => StepName n'
    | inl InfoFileNotFound => StepNotFound
    | inl _ => StepInfoError
    end
  end.

(* ------------------------------------------------------------------ *)
(** ** Proxy list file (utils.py, [ProxyManager]) *)

(** Python strings are modelled at the level of code points below 256.
    [str.isspace] on them: tab, LF, VT, FF, CR, 0x1c-0x1f, space, 0x85,
    0xa0. *)
Definition is_space (c : ascii) : bool :=
  bool_decide (nat_of_ascii c ∈ [9; 10; 11; 12; 13; 28; 29; 30; 31; 32; 133; 160]%nat).

(** Line boundaries of [str.splitlines] below 256: LF, VT, FF, CR,
    0x1c, 0x1d, 0x1e, 0x85 (and CR LF as one boundary). *)
Definition is_linebreak (c : ascii) : bool :=
  bool_decide (nat_of_ascii c ∈ [10; 11; 12; 13; 28; 29; 30; 133]%nat).

(** [str.lstrip()] and [str.rstrip()]; [str.strip()] removes both. *)
Fixpoint lstrip (s : string) : string :=
  match s with
  | EmptyString => EmptyString
  | String c r => if is_space c then lstrip r else s
  end.

Fixpoint rstrip (s : string) : string :=
  match s with
  | EmptyString => EmptyString
  | String c r =>
    let r' := rstrip r in
    if is_space c && bool_decide (r' = EmptyString) then EmptyString
    else String c r'
  end.

Definition strip (s : string) : string := rstrip (lstrip s).

(** [str.splitlines()]: [cur] is the line read so far; a final line is
    only produced when it is non-empty, so a trailing boundary does not
    add an empty line. *)
Fixpoint splitlines_go (s : string) (cur : string) : list string :=
  match s with
  | EmptyString => if decide (cur = EmptyString) then [] else [cur]
  | String c rest =>
    if decide (c = "013"%char) then
      match rest with
      | String d rest' =>
        if decide (d = "010"%char) then cur :: splitlines_go rest' ""
        else cur :: splitlines_go rest ""
      | EmptyString => [cur]
      end
    else if is_linebreak c then cur :: splitlines_go rest ""
    else splitlines_go rest (String.append cur (String c EmptyString))
  end.

Definition splitlines (s : string) : list string := splitlines_go s "".

(** Reading a file in text mode translates CR LF and a lone CR to LF. *)
Fixpoint universal_newlines (s : string) : string :=
  match s with
  | EmptyString => EmptyString
  | String c rest =>
    if decide (c = "013"%char) then
      match rest with
      | String d rest' =>
        if decide (d = "010"%char) then String "010"%char (universal_newlines rest')
        else String "010"%char (universal_newlines rest)
      | EmptyString => String "010"%char EmptyString
      end
    else String c (universal_newlines rest)
  end.

(** [_load_proxies]: [None] when the file does not exist. *)
Definition load_proxies (file : option string) : list string :=
  match file with
  | None => []
  | Some content =>
    filter (fun p => p <> "") (strip <$> splitlines (universal_newlines content))
  end.

(** [_save_proxies]: the file content written, ["\n".join(self.proxies)]. *)
Definition save_proxies (proxies : list string) : string :=
  String.concat (String "010"%char EmptyString) proxies.

(** [_validate_proxies], reading the [as_completed] loop: [done] lists
    each probed proxy with the result of [_check_proxy], in completion
    order; the loop stops once 50 working proxies are collected. *)
Fixpoint validate_go (done : list (string * bool)) (working : list string)
    : list string :=
  match done with
  | [] => working
  | (proxy, ok) :: rest =>
    if ok then
      let working' := working ++ [proxy] in
      if decide (50 <= length working')%nat then working'
      else validate_go rest working'
    else validate_go rest working
  end.

Definition validate_proxies (done : list (string * bool)) : list string :=
  validate_go done [].

(* ------------------------------------------------------------------ *)
(** ** Steps 5 to 7 of [Downloader.start] *)


(** The proxies of the key exchanges and the number of URL requests in
    a run of [generate_download_urls]. *)
Fixpoint exchange_proxies (tr : list k2s_event) : list (option string) :=
  match tr with
  | [] => []
  | EExchange _ p _ :: tr' => p :: exchange_proxies tr'
  | _ :: tr' => exchange_proxies tr'
  end.

Fixpoint waits (tr : list k2s_event) : list Z :=
  match tr with
  | [] => []
  | EWait w :: tr' => w :: waits tr'
  | _ :: tr' => waits tr'
  end.

Fixpoint gen_requests (tr : list k2s_event) : list (option string) :=
  match tr with
  | [] => []
  | EGenUrl p :: tr' => p :: gen_requests tr'
  | _ :: tr' => gen_requests tr'
  end.

(** The attempt outcomes after which [_download_chunk] tries again (when
    attempts are left): a rate-limited [HTTPError], or any other
    exception before the last attempt. *)
Definition retried (o : attempt_outcome) : bool :=
  match o with
  | AOk _ => false
  | AHttpError code => is_rate_limited code
  | AException => true
  | AStreamError _ => true
  end.

(** What an attempt leaves in the part file, if it opens it. *)
Definition stream_write (o : attempt_outcome) : option bytes :=
  match o with
  | AOk data => Some data
  | AStreamError partial => Some partial
  | _ => None
  end.

Definition rate_limited_outcome (o : attempt_outcome) : bool :=
  match o with
  | AHttpError code => is_rate_limited code
  | _ => false
  end.

(** The seconds slept in a run of [_download_chunk]. *)
Fixpoint sleep_total (tr : list dl_event) : Z :=
  match tr with
  | [] => 0
  | ERateLimitSleep d :: tr' => d + sleep_total tr'
  | ESleep d :: tr' => d + sleep_total tr'
  | EGet _ :: tr' => sleep_total tr'
  | EWrite _ :: tr' => sleep_total tr'
  end.

(** The test of the resume loop: the part file exists and
    [os.path.getsize(chunk['filename']) == chunk['size']]. *)
Definition part_ok (d : fs) (c : chunk) : bool :=
  match d !! c_filename c with
  | Some b => bool_decide (Z.of_nat (length b) = c_size c)
  | None => false
  end.

(** A string with no [str.splitlines] boundary in it. *)
Fixpoint no_linebreak (s : string) : Prop :=
  match s with
  | EmptyString => True
  | String c r => is_linebreak c = false /\ no_linebreak r
  end.

(** Leading ['0'] characters removed: undoes the padding of [zfill3]. *)
Fixpoint drop_zeros (s : string) : string :=
  match s with
  | String "0"%char r => drop_zeros r
  | _ => s
  end.

(** Sample [getUrl] answers. *)
Definition invalid_captcha_resp : api_resp :=
  {| r_status := Some "error"; r_message := Some "Invalid captcha code";
     r_time_wait := None; r_free_download_key := None; r_url := None |}.

Definition url_resp (u : string) : api_resp :=
  {| r_status := None; r_message := None; r_time_wait := None;
     r_free_download_key := None; r_url := Some u |}.

Definition wait_key_resp (w : Z) (key : string) : api_resp :=
  {| r_status := None; r_message := None; r_time_wait := Some w;
     r_free_download_key := Some key; r_url := None |}.

Definition not_found_resp : api_resp :=
  {| r_status := Some "error"; r_message := Some "File not found";
     r_time_wait := None; r_free_download_key := None; r_url := None |}.

(* ================================================================== *)
(** * Properties *)

Example plan_45_20 :
  plan "f" 45 20 =
  Planned [ {| c_id := 0; c_start := 0; c_end := 19; c_size := 20;
               c_filename := "tmp/f.part000" |};
            {| c_id := 1; c_start := 20; c_end := 39; c_size := 20;
               c_filename := "tmp/f.part001" |};
            {| c_id := 2; c_start := 40; c_end := 44; c_size := 5;
               c_filename := "tmp/f.part002" |} ].
Proof. reflexivity. Qed.


(** ** Segment planner *)

Lemma ceil_div_bounds (a b : Z) :
  0 < b -> (ceil_div a b - 1) * b < a <= ceil_div a b * b.
Proof.
  intros Hb. unfold ceil_div.
  pose proof (Z.div_mod (- a) b ltac:(lia)) as Hdm.
  pose proof (Z.mod_pos_bound (- a) b Hb) as Hr.
  set (q := (- a) / b) in *. set (r := (- a) mod b) in *. nia.
Qed.







(** ** Degenerate planning inputs *)

(** C3 (counterexample): a zero total size is not rejected; the plan is
    the empty list of chunks. *)
Lemma plan_zero_total_not_rejected :
  plan "f" 0 (20 * 1024 * 1024) = Planned [].
Proof. reflexivity. Qed.

(** C3 (as the code does it): nothing rejects degenerate inputs. With
    [split_size = 0] the chunk count fails with a division by zero; with
    [split_size > 0] and [total_size <= 0] the plan is empty. *)
Theorem plan_degenerate (f : string) (T s : Z) :
  plan f T 0 = ZeroDivisionError /\
  (0 < s -> T <= 0 -> plan f T s = Planned []).
Proof.
  split; [reflexivity|]. intros Hs HT. unfold plan.
  rewrite decide_False by lia.
  assert (ceil_div T s <= 0).
  { pose proof (ceil_div_bounds T s Hs). nia. }
  replace (Z.to_nat (ceil_div T s)) with O by lia. reflexivity.
Qed.

Lemma plan_degenerate_witness :
  0 < 20 /\ 0 <= 0 /\ plan "f" 0 20 = Planned [].
Proof.
  split; [lia|]. split; [lia|].
  apply (proj2 (plan_degenerate "f" 0 20)); lia.
Defined.

(** ** Chunk retry loop *)

Lemma download_loop_bounds (get : nat -> attempt_outcome) (left a : nat) :
  (length (gets (fst (download_loop get a left))) <= left)%nat /\
  StronglySorted Z.lt (rate_limit_delays (fst (download_loop get a left))) /\
  Forall (fun d => (Z.of_nat a + 1) * 5 <= d)
    (rate_limit_delays (fst (download_loop get a left))).
Proof.
  revert a. induction left as [|left IH]; intros a; simpl.
  { repeat split; constructor. }
  destruct (IH (S a)) as (Hlen & Hsort & Hge).
  destruct (download_loop get (S a) left) as [tr r] eqn:Hrun; simpl in *.
  destruct (get a) as [data|code| |partial].
  - simpl. repeat split; [lia | constructor | constructor].
  - destruct (is_rate_limited code); simpl.
    + repeat split; [lia | |].
      * constructor; [exact Hsort|].
        eapply Forall_impl; [exact Hge|]. simpl. intros d Hd. lia.
      * constructor; [lia|].
        eapply Forall_impl; [exact Hge|]. simpl. intros d Hd. lia.
    + repeat split; [lia | constructor | constructor].
  - case_decide; simpl.
    + repeat split; [lia | constructor | constructor].
    + repeat split; [lia | exact Hsort |].
      eapply Forall_impl; [exact Hge|]. simpl. intros d Hd. lia.
  - case_decide; simpl.
    + repeat split; [lia | constructor | constructor].
    + repeat split; [lia | exact Hsort |].
      eapply Forall_impl; [exact Hge|]. simpl. intros d Hd. lia.
Qed.

(** C9: a chunk download makes at most [max_retries] requests, so the
    loop terminates, and the delays slept on the rate-limited path,
    [(attempt + 1) * 5], are strictly increasing. *)
Theorem download_chunk_bounded (get : nat -> attempt_outcome) :
  (length (gets (fst (download_chunk get))) <= max_retries)%nat /\
  StronglySorted Z.lt (rate_limit_delays (fst (download_chunk get))).
Proof.
  destruct (download_loop_bounds get max_retries 0) as (H1 & H2 & _).
  split; assumption.
Qed.

(** ** Link acquisition *)

Lemma refresh_captcha_no_exchange o ch e :
  In e (fst (refresh_captcha o ch)) -> forall n p c, e <> EExchange n p c.
Proof. destruct ch, o; simpl; intros [<-|[]]; discriminate. Qed.

Lemma key_loop_cons_head ex rf n ch p ps :
  exists rest, fst (key_loop ex rf n ch (p :: ps)) = EExchange n p ch :: rest.
Proof.
  simpl. repeat (case_match || case_decide); simplify_eq/=; eauto.
Qed.

(** C4 (as the code does it): after an "Invalid captcha code" answer to
    the exchange at a candidate, the loop runs the challenge refresh and
    goes on with the next candidate, with the new challenge state only
    when both [request_captcha] and [solve_captcha] succeeded; the
    candidate is not tried again. In direct mode (no proxy manager, the
    single candidate [None]) the refreshed challenge is never sent: the
    call ends with the K2SError "Could not generate a download key". *)
Theorem invalid_captcha_not_retried ex rf gen count n ch p ps :
  is_invalid_captcha (ex n p ch) = true ->
  key_loop ex rf n ch (p :: ps) =
    (EExchange n p ch :: fst (refresh_captcha (rf n) ch)
       ++ fst (key_loop ex rf (S n) (snd (refresh_captcha (rf n) ch)) ps),
     snd (key_loop ex rf (S n) (snd (refresh_captcha (rf n) ch)) ps)) /\
  (forall p' ps', ps = p' :: ps' -> exists rest,
     fst (key_loop ex rf (S n) (snd (refresh_captcha (rf n) ch)) ps)
       = EExchange (S n) p' (snd (refresh_captcha (rf n) ch)) :: rest) /\
  (is_invalid_captcha (ex O None (0, 0)%nat) = true ->
   generate_download_urls None ex rf gen count =
     (ERequestCaptcha 0 :: EExchange 0 None (0, 0)%nat
        :: fst (refresh_captcha (rf O) (0, 0)%nat), GNoKey)).
Proof.
  intros Hinv. split; [|split].
  - simpl. destruct (ex n p ch) as [resp|]; [|discriminate].
    simpl in Hinv. apply bool_decide_eq_true in Hinv. rewrite Hinv.
    rewrite decide_True by done.
    destruct (refresh_captcha (rf n) ch) as [extra ch']. simpl.
    destruct (key_loop ex rf (S n) ch' ps). reflexivity.
  - intros p' ps' ->. apply key_loop_cons_head.
  - intros Hinv0. unfold generate_download_urls. simpl.
    destruct (ex O None (0, 0)%nat) as [resp|]; [|discriminate].
    simpl in Hinv0. apply bool_decide_eq_true in Hinv0. rewrite Hinv0.
    rewrite decide_True by done.
    destruct (rf O); reflexivity.
Qed.

Lemma invalid_captcha_not_retried_witness :
  let ex := fun (n : nat) (_ : option string) (_ : captcha) =>
              if decide (n = O) then Json invalid_captcha_resp
              else Json (url_resp "https://example/u") in
  let rf := fun (_ : nat) => RefreshOk in
  let gen := fun (_ : nat) (_ : option string) (_ : string) => Raised in
  is_invalid_captcha (ex O None (0, 0)%nat) = true /\
  generate_download_urls None ex rf gen 1 =
    ([ERequestCaptcha 0; EExchange 0 None (0, 0)%nat; ERequestCaptcha 1],
     GNoKey).
Proof.
  intros ex rf gen.
  assert (Hinv : is_invalid_captcha (ex O None (0, 0)%nat) = true)
    by reflexivity.
  split; [exact Hinv|].
  exact (proj2 (proj2 (invalid_captcha_not_retried ex rf gen 1 O (0, 0)%nat
    None [] Hinv)) Hinv).
Defined.

(** C5: with a proxy manager whose confirmed set is empty no exchange is
    made at all and the call fails with "Could not generate a download
    key"; only without a proxy manager is the single direct attempt
    made. *)
Theorem empty_pool_no_direct_attempt ex rf gen count :
  generate_download_urls (Some []) ex rf gen count = ([ERequestCaptcha 0], GNoKey) /\
  fst (key_loop ex rf 0 (0, 0)%nat (candidates None)) <> [] /\
  (forall e, In e (fst (key_loop ex rf 0 (0, 0)%nat (candidates None))) ->
     forall n p ch, e = EExchange n p ch -> n = O /\ p = None).
Proof.
  split; [reflexivity|]. simpl.
  repeat (case_match || case_decide); simplify_eq/=;
    (split; [done|]); intros ? He ? ? ? ->; intuition congruence.
Qed.

Lemma cons_extra_split {A} (x y : A) (extra tr pre post : list A) :
  x :: extra ++ tr = pre ++ y :: post -> ~ In y extra ->
  (pre = [] /\ x = y) \/ (exists pre', tr = pre' ++ y :: post).
Proof.
  destruct pre as [|z pre]; simpl; intros H Hy; injection H as H1 H2;
    [left; done|right].
  revert pre H2. induction extra as [|e extra IH]; intros pre H2; simpl in *.
  - eauto.
  - destruct pre as [|w pre]; simpl in H2; injection H2 as H3 H4.
    + subst. tauto.
    + eapply IH; eauto.
Qed.

Lemma key_loop_not_found_last ex rf ps :
  forall n ch tr r pre m p c post,
  key_loop ex rf n ch ps = (tr, r) ->
  tr = pre ++ EExchange m p c :: post ->
  is_not_found (ex m p c) = true ->
  post = [] /\ r = LNotFound.
Proof.
  induction ps as [|q ps IH];
    intros n ch tr r pre m p c post Hrun Htr Hnf; simpl in Hrun.
  { injection Hrun as <- <-. destruct pre; discriminate. }
  destruct (ex n q ch) as [resp|] eqn:Hex.
  - destruct (error_message resp) as [msg|] eqn:Hmsg.
    + case_decide as Hinv; [|case_decide as Hnot].
      * destruct (refresh_captcha (rf n) ch) as [extra ch'] eqn:Hrf.
        destruct (key_loop ex rf (S n) ch' ps) as [tr' r'] eqn:Hk.
        injection Hrun as <- <-.
        apply cons_extra_split in Htr as [[-> Heq]|[pre' Htr]].
        { injection Heq as -> -> ->. rewrite Hex in Hnf. simpl in Hnf.
          apply bool_decide_eq_true in Hnf. rewrite Hmsg in Hnf.
          injection Hnf as ->. discriminate. }
        { eapply IH; eauto. }
        intros Hin. pose proof (refresh_captcha_no_exchange (rf n) ch) as Hno.
        rewrite Hrf in Hno. exact (Hno _ Hin m p c eq_refl).
      * injection Hrun as <- <-.
        destruct pre as [|x pre]; simpl in Htr.
        { inversion Htr; subst. done. }
        injection Htr as Heq Htr.
        destruct pre; discriminate.
      * destruct (key_loop ex rf (S n) ch ps) as [tr' r'] eqn:Hk.
        injection Hrun as <- <-.
        apply (cons_extra_split _ _ []) in Htr as [[-> Heq]|[pre' Htr]];
          [| eapply IH; eauto | intros []].
        injection Heq as -> -> ->. rewrite Hex in Hnf. simpl in Hnf.
        apply bool_decide_eq_true in Hnf. rewrite Hmsg in Hnf.
        injection Hnf as ->. done.
    + assert (Hhead : ~ (n = m /\ q = p /\ ch = c)).
      { intros (<- & <- & <-). rewrite Hex in Hnf. simpl in Hnf.
        apply bool_decide_eq_true in Hnf. congruence. }
      destruct (r_time_wait resp) as [w|].
      * case_decide; [|case_decide].
        1, 2: destruct (key_loop ex rf (S n) ch ps) as [tr' r'] eqn:Hk;
          injection Hrun as <- <-;
          apply (cons_extra_split _ _ []) in Htr as [[-> Heq]|[pre' Htr]];
          [ injection Heq as -> -> ->; tauto | eapply IH; eauto | intros [] ].
        injection Hrun as <- <-.
        destruct pre as [|x pre]; simpl in Htr.
        { inversion Htr; subst. tauto. }
        injection Htr as Heq Htr.
        destruct pre as [|y pre]; simpl in Htr; injection Htr as Heq' Htr;
          [discriminate|]. destruct pre; discriminate.
      * destruct (r_url resp) as [u|];
          [|destruct (r_free_download_key resp) as [k|]].
        1, 2: injection Hrun as <- <-;
          destruct pre as [|x pre]; simpl in Htr;
          [ inversion Htr; subst; tauto
          | injection Htr as Heq Htr; destruct pre; discriminate ].
        destruct (key_loop ex rf (S n) ch ps) as [tr' r'] eqn:Hk.
        injection Hrun as <- <-.
        apply (cons_extra_split _ _ []) in Htr as [[-> Heq]|[pre' Htr]];
          [ injection Heq as -> -> ->; tauto | eapply IH; eauto | intros [] ].
  - destruct (key_loop ex rf (S n) ch ps) as [tr' r'] eqn:Hk.
    injection Hrun as <- <-.
    apply (cons_extra_split _ _ []) in Htr as [[-> Heq]|[pre' Htr]];
      [| eapply IH; eauto | intros []].
    injection Heq as -> -> ->. rewrite Hex in Hnf. discriminate.
Qed.

Lemma key_loop_not_found_in ex rf n ch ps tr r m p c :
  key_loop ex rf n ch ps = (tr, r) ->
  In (EExchange m p c) tr -> is_not_found (ex m p c) = true ->
  r = LNotFound.
Proof.
  intros Hrun Hin Hnf. apply in_split in Hin as (pre & post & Htr).
  eapply key_loop_not_found_last; eauto.
Qed.

Lemma gen_loop_events gen key p i left e :
  In e (fst (gen_loop gen key p i left)) -> e = EGenUrl p.
Proof.
  revert i. induction left as [|left IH]; intros i; simpl; [done|].
  destruct (gen_loop gen key p (S i) left) as [tr urls] eqn:Hg. simpl.
  intros [<-|Hin]; [done|]. apply (IH (S i)). rewrite Hg. exact Hin.
Qed.

(** C7: once an exchange is answered "File not found", it is the last
    interaction of [generate_download_urls]: no exchange, challenge,
    wait or URL generation follows, the call ends in [FileNotFoundError]
    and [start] stops the session as not available. *)
Theorem file_not_found_terminal pm ex rf gen count tr o pre m p c post :
  generate_download_urls pm ex rf gen count = (tr, o) ->
  tr = pre ++ EExchange m p c :: post ->
  is_not_found (ex m p c) = true ->
  post = [] /\ o = GFileNotFound /\ start_links o = SNotAvailable.
Proof.
  intros Hrun Htr Hnf. unfold generate_download_urls in Hrun.
  destruct (key_loop ex rf 0 (0, 0)%nat (candidates pm)) as [tr1 r] eqn:Hk.
  assert (Hin1 : In (EExchange m p c) (ERequestCaptcha 0 :: tr1) ->
                 r = LNotFound).
  { intros [Heq|Hin]; [discriminate|]. eapply key_loop_not_found_in; eauto. }
  assert (Hin : In (EExchange m p c) tr).
  { rewrite Htr. apply in_or_app. right. left. done. }
  destruct r as [[key|] q|u| |].
  - case_decide.
    + injection Hrun as <- <-. specialize (Hin1 Hin). discriminate.
    + destruct (gen_loop gen key q 0 count) as [tr2 urls] eqn:Hg.
      injection Hrun as <- <-. rewrite app_comm_cons in Hin.
      apply in_app_or in Hin as [Hin|Hin].
      * specialize (Hin1 Hin). discriminate.
      * assert (Hin' : In (EExchange m p c) (fst (gen_loop gen key q 0 count)))
          by (rewrite Hg; exact Hin).
        apply gen_loop_events in Hin'. discriminate.
  - injection Hrun as <- <-. specialize (Hin1 Hin). discriminate.
  - injection Hrun as <- <-. specialize (Hin1 Hin). discriminate.
  - injection Hrun as <- <-. split; [|done].
    destruct pre as [|x pre]; simpl in Htr; [discriminate|].
    injection Htr as _ Htr.
    eapply (key_loop_not_found_last ex rf _ 0 (0, 0)%nat); eauto.
  - injection Hrun as <- <-. specialize (Hin1 Hin). discriminate.
Qed.

Lemma file_not_found_terminal_witness :
  let ex := fun (_ : nat) (_ : option string) (_ : captcha) => Json not_found_resp in
  let rf := fun (_ : nat) => RefreshOk in
  let gen := fun (_ : nat) (_ : option string) (_ : string) => Raised in
  generate_download_urls (Some ["p1"; "p2"]) ex rf gen 3 =
    ([ERequestCaptcha 0; EExchange 0 (Some "p1") (0, 0)%nat], GFileNotFound) /\
  is_not_found (ex 0%nat (Some "p1") (0, 0)%nat) = true /\
  start_links GFileNotFound = SNotAvailable.
Proof.
  cbn zeta. split; [reflexivity|]. split; [reflexivity|].
  refine (proj2 (proj2 (file_not_found_terminal (Some ["p1"; "p2"])
    (fun _ _ _ => Json not_found_resp) (fun _ => RefreshOk)
    (fun _ _ _ => Raised) 3
    [ERequestCaptcha 0; EExchange 0 (Some "p1") (0, 0)%nat] GFileNotFound
    [ERequestCaptcha 0] 0 (Some "p1") (0, 0)%nat [] _ _ _)));
    reflexivity.
Defined.

(** ** Assembler *)

Lemma Forall2_impl_elem {A B} (P Q : A -> B -> Prop) (xs : list A) (ys : list B) :
  Forall2 P xs ys -> (forall x y, x ∈ xs -> P x y -> Q x y) -> Forall2 Q xs ys.
Proof.
  induction 1 as [|x y xs ys Hxy Hrest IH]; intros HPQ; constructor.
  - apply HPQ; [apply elem_of_cons; by left | done].
  - apply IH. intros x' y' Hx'. apply HPQ. apply elem_of_cons; by right.
Qed.

(** Consuming a prefix of parts that are all present: the destination
    grows by their contents, the parts are removed, other files stay. *)
Lemma assemble_loop_consume (dest : string) (cs : list chunk) :
  forall (bs : list bytes) (d : fs) (acc : bytes) (rest : list chunk),
  dest ∉ c_filename <$> cs ->
  NoDup (c_filename <$> cs) ->
  Forall2 (fun ch b => d !! c_filename ch = Some b) cs bs ->
  d !! dest = Some acc ->
  exists d',
    assemble_loop dest (cs ++ rest) d = assemble_loop dest rest d' /\
    d' !! dest = Some (acc ++ concat bs) /\
    (forall ch, ch ∈ cs -> d' !! c_filename ch = None) /\
    (forall k, k <> dest -> k ∉ c_filename <$> cs -> d' !! k = d !! k).
Proof.
  induction cs as [|c cs IH]; intros bs d acc rest Hdest Hnd Hall Hacc.
  { inversion Hall; subst. exists d. simpl. rewrite app_nil_r.
    split; [done|]. split; [done|]. split; [|done].
    intros ch Hch. inversion Hch. }
  inversion Hall as [|? b ? bs' Hb Hall']; subst.
  rewrite fmap_cons in Hdest, Hnd. apply not_elem_of_cons in Hdest as [Hdc Hdest].
  apply NoDup_cons in Hnd as [Hc Hnd].
  set (d1 := delete (c_filename c) (<[dest := acc ++ b]> d)).
  destruct (IH bs' d1 (acc ++ b) rest Hdest Hnd) as (d' & Hrun & Hd' & Hgone & Hkeep).
  - eapply Forall2_impl_elem; [exact Hall'|]. intros ch b' Hch Hb'.
    assert (Hin : c_filename ch ∈ c_filename <$> cs)
      by (apply list_elem_of_fmap; eauto).
    unfold d1. rewrite lookup_delete_ne, lookup_insert_ne; [done | |].
    + intros Heq. apply Hdest. by rewrite Heq.
    + intros Heq. apply Hc. by rewrite Heq.
  - unfold d1. rewrite lookup_delete_ne by done. apply lookup_insert_eq.
  - exists d'. split; [|split; [|split]].
    + simpl. rewrite Hb, Hacc. exact Hrun.
    + rewrite Hd'. simpl. by rewrite app_assoc.
    + intros ch Hch. apply elem_of_cons in Hch as [->|Hch]; [|by apply Hgone].
      destruct (decide (c_filename c ∈ c_filename <$> cs)) as [Hin|Hnin];
        [done|].
      rewrite Hkeep by done. unfold d1. apply lookup_delete_eq.
    + intros k Hk Hnk. rewrite fmap_cons in Hnk.
      apply not_elem_of_cons in Hnk as [Hkc Hnk].
      rewrite Hkeep by done. unfold d1.
      rewrite lookup_delete_ne, lookup_insert_ne by done. done.
Qed.

Lemma assemble_file_present (dest : string) (cs : list chunk) (bs : list bytes)
    (d : fs) (rest : list chunk) :
  dest ∉ c_filename <$> cs ->
  NoDup (c_filename <$> cs) ->
  Forall2 (fun ch b => d !! c_filename ch = Some b) cs bs ->
  exists d',
    assemble_file dest (cs ++ rest) d = assemble_loop dest rest d' /\
    d' !! dest = Some (concat bs) /\
    (forall ch, ch ∈ cs -> d' !! c_filename ch = None) /\
    (forall k, k <> dest -> k ∉ c_filename <$> cs -> d' !! k = d !! k).
Proof.
  intros Hdest Hnd Hall.
  set (d0 := <[dest := []]> (delete dest d)).
  destruct (assemble_loop_consume dest cs bs d0 [] rest Hdest Hnd)
    as (d' & Hrun & Hd' & Hgone & Hkeep).
  - eapply Forall2_impl_elem; [exact Hall|]. intros ch b Hch Hb.
    assert (Hne : dest <> c_filename ch).
    { intros Heq. apply Hdest. rewrite Heq. apply list_elem_of_fmap; eauto. }
    unfold d0. rewrite lookup_insert_ne, lookup_delete_ne by done. done.
  - unfold d0. apply lookup_insert_eq.
  - exists d'. split; [exact Hrun|]. split; [exact Hd'|]. split; [exact Hgone|].
    intros k Hk Hnk. rewrite Hkeep by done. unfold d0.
    rewrite lookup_insert_ne, lookup_delete_ne by congruence. done.
Qed.

(** C2 (counterexample): destination "out" holds [01]; part 0 is present
    with the wrong size (two bytes for a one-byte chunk) and part 1 is
    missing. Assembly reports only chunk 1 and the destination has been
    overwritten with the wrong-size part. *)
Lemma assemble_touches_destination :
  match plan "out" 2 1 with
  | Planned cs =>
    let d : fs := <["out" := [Byte.x01]]>
                  (<["tmp/out.part000" := [Byte.x07; Byte.x08]]> ∅) in
    snd (assemble_file "out" cs d) = AsmMissing 1 /\
    fst (assemble_file "out" cs d) !! "out" = Some [Byte.x07; Byte.x08] /\
    d !! "out" = Some [Byte.x01]
  | ZeroDivisionError => False
  end.
Proof. vm_compute. repeat split. Qed.

(** C2 (as the code does it): assembly removes and re-creates the
    destination before looking at any part. When the parts of [cs] are
    present and the part of [c] is missing, it stops at [c], reports only
    [c]'s id and leaves the destination holding the parts of [cs],
    whatever it held before. Part sizes are never checked: when all parts
    are present, whatever their sizes, assembly completes with their
    concatenation. *)
Theorem assemble_file_behaviour (dest : string) (cs : list chunk)
    (bs : list bytes) (d : fs) :
  dest ∉ c_filename <$> cs ->
  NoDup (c_filename <$> cs) ->
  Forall2 (fun ch b => d !! c_filename ch = Some b) cs bs ->
  (forall c post, d !! c_filename c = None -> dest <> c_filename c ->
     snd (assemble_file dest (cs ++ c :: post) d) = AsmMissing (c_id c) /\
     fst (assemble_file dest (cs ++ c :: post) d) !! dest = Some (concat bs) /\
     (forall ch, ch ∈ cs ->
        fst (assemble_file dest (cs ++ c :: post) d) !! c_filename ch = None)) /\
  snd (assemble_file dest cs d) = AsmComplete /\
  fst (assemble_file dest cs d) !! dest = Some (concat bs).
Proof.
  intros Hdest Hnd Hall. split.
  - intros c post Hc Hdc.
    destruct (assemble_file_present dest cs bs d (c :: post) Hdest Hnd Hall)
      as (d' & Hrun & Hd' & Hgone & Hkeep).
    assert (Hc' : d' !! c_filename c = None).
    { destruct (decide (c_filename c ∈ c_filename <$> cs)) as [Hin|Hnin].
      - apply list_elem_of_fmap in Hin as (ch & Heq & Hch).
        rewrite Heq. by apply Hgone.
      - rewrite Hkeep by congruence. done. }
    rewrite Hrun. simpl. rewrite Hc'. simpl. auto.
  - destruct (assemble_file_present dest cs bs d [] Hdest Hnd Hall)
      as (d' & Hrun & Hd' & _ & _).
    rewrite app_nil_r in Hrun. rewrite Hrun. simpl. auto.
Qed.

Lemma assemble_file_behaviour_witness :
  let c0 := plan_chunk "out" 2 1 0 in
  let c1 := plan_chunk "out" 2 1 1 in
  let d : fs := <["tmp/out.part000" := [Byte.x07; Byte.x08]]> ∅ in
  ("out" ∉ (c_filename <$> [c0])) /\ NoDup (c_filename <$> [c0]) /\
  Forall2 (fun ch b => d !! c_filename ch = Some b) [c0] [[Byte.x07; Byte.x08]] /\
  snd (assemble_file "out" ([c0] ++ [c1]) d) = AsmMissing 1.
Proof.
  cbn zeta.
  assert (H1 : "out" ∉ (c_filename <$> [plan_chunk "out" 2 1 0])).
  { apply not_elem_of_cons. split; [discriminate | apply not_elem_of_nil]. }
  assert (H2 : NoDup (c_filename <$> [plan_chunk "out" 2 1 0]))
    by (simpl; apply NoDup_singleton).
  assert (H3 : Forall2 (fun ch b =>
      (<["tmp/out.part000" := [Byte.x07; Byte.x08]]> (∅ : fs)) !! c_filename ch
        = Some b) [plan_chunk "out" 2 1 0] [[Byte.x07; Byte.x08]])
    by (constructor; [reflexivity | constructor]).
  split; [exact H1|]. split; [exact H2|]. split; [exact H3|].
  destruct (assemble_file_behaviour "out" [plan_chunk "out" 2 1 0]
              [[Byte.x07; Byte.x08]] _ H1 H2 H3) as [Hmiss _].
  destruct (Hmiss (plan_chunk "out" 2 1 1) []) as [H _];
    [reflexivity | discriminate | exact H].
Defined.

(** C6 (counterexample): one chunk whose part holds [05]. The first
    assembly writes [05]; the second finds the part gone and leaves an
    empty destination. *)
Lemma assemble_twice_differs :
  let cs := [plan_chunk "out" 1 1 0] in
  let d : fs := <["tmp/out.part000" := [Byte.x05]]> ∅ in
  let run1 := assemble_file "out" cs d in
  let run2 := assemble_file "out" cs (fst run1) in
  snd run1 = AsmComplete /\ fst run1 !! "out" = Some [Byte.x05] /\
  snd run2 = AsmMissing 0 /\ fst run2 !! "out" = Some [] /\
  fst run1 !! "out" <> fst run2 !! "out".
Proof. vm_compute. repeat split. discriminate. Qed.

(** C6 (as the code does it): an assembly that completes removes every
    part, so running it again on the same non-empty chunk list stops at
    the first chunk as missing and leaves an empty destination. *)
Theorem assemble_twice (dest : string) (c : chunk) (cs : list chunk)
    (bs : list bytes) (d : fs) :
  dest ∉ c_filename <$> c :: cs ->
  NoDup (c_filename <$> c :: cs) ->
  Forall2 (fun ch b => d !! c_filename ch = Some b) (c :: cs) bs ->
  let run1 := assemble_file dest (c :: cs) d in
  let run2 := assemble_file dest (c :: cs) (fst run1) in
  snd run1 = AsmComplete /\ fst run1 !! dest = Some (concat bs) /\
  snd run2 = AsmMissing (c_id c) /\ fst run2 !! dest = Some [] /\
  fst run2 = <[dest := []]> (delete dest (fst run1)).
Proof.
  intros Hdest Hnd Hall.
  destruct (assemble_file_present dest (c :: cs) bs d [] Hdest Hnd Hall)
    as (d' & Hrun & Hd' & Hgone & _).
  rewrite app_nil_r in Hrun. cbn zeta. rewrite Hrun. simpl.
  assert (Hne : dest <> c_filename c).
  { intros Heq. apply Hdest. rewrite Heq. apply elem_of_cons. by left. }
  unfold assemble_file. simpl.
  rewrite lookup_insert_ne, lookup_delete_ne by done.
  rewrite Hgone by (apply elem_of_cons; by left). simpl.
  split; [done|]. split; [done|]. split; [done|]. split; [|done].
  apply lookup_insert_eq.
Qed.

Lemma assemble_twice_witness :
  let c0 := plan_chunk "out" 1 1 0 in
  let d : fs := <["tmp/out.part000" := [Byte.x05]]> ∅ in
  ("out" ∉ (c_filename <$> [c0])) /\ NoDup (c_filename <$> [c0]) /\
  Forall2 (fun ch b => d !! c_filename ch = Some b) [c0] [[Byte.x05]] /\
  snd (assemble_file "out" [c0] (fst (assemble_file "out" [c0] d)))
    = AsmMissing 0.
Proof.
  cbn zeta.
  assert (H1 : "out" ∉ (c_filename <$> [plan_chunk "out" 1 1 0])).
  { apply not_elem_of_cons. split; [discriminate | apply not_elem_of_nil]. }
  assert (H2 : NoDup (c_filename <$> [plan_chunk "out" 1 1 0]))
    by (simpl; apply NoDup_singleton).
  assert (H3 : Forall2 (fun ch b =>
      (<["tmp/out.part000" := [Byte.x05]]> (∅ : fs)) !! c_filename ch
        = Some b) [plan_chunk "out" 1 1 0] [[Byte.x05]])
    by (constructor; [reflexivity | constructor]).
  split; [exact H1|]. split; [exact H2|]. split; [exact H3|].
  exact (proj1 (proj2 (proj2
    (assemble_twice "out" (plan_chunk "out" 1 1 0) [] [[Byte.x05]] _ H1 H2 H3)))).
Defined.

(** ** Resume check *)

Lemma resume_check_spec (urls : list string) (cs : list chunk) :
  forall d : fs, NoDup (c_filename <$> cs) ->
  (forall k, k ∉ c_filename <$> cs ->
     fst (resume_check urls cs d) !! k = d !! k) /\
  (forall j, j ∈ snd (resume_check urls cs d) -> snd j ∈ cs) /\
  (forall c, c ∈ cs ->
     match d !! c_filename c with
     | Some b =>
       if decide (Z.of_nat (length b) = c_size c) then
         fst (resume_check urls cs d) !! c_filename c = Some b /\
         c ∉ snd <$> snd (resume_check urls cs d)
       else
         fst (resume_check urls cs d) !! c_filename c = None /\
         (pick_url urls c, c) ∈ snd (resume_check urls cs d)
     | None =>
       fst (resume_check urls cs d) !! c_filename c = None /\
       (pick_url urls c, c) ∈ snd (resume_check urls cs d)
     end).
Proof.
  induction cs as [|c cs IH]; intros d Hnd.
  { simpl. split; [done|]. split; intros ? H; inversion H. }
  rewrite fmap_cons in Hnd. apply NoDup_cons in Hnd as [Hc Hnd].
  assert (Hne : forall ch, ch ∈ cs -> c_filename ch <> c_filename c).
  { intros ch Hch Heq. apply Hc. rewrite <- Heq.
    apply list_elem_of_fmap; eauto. }
  assert (Hnotin : forall ch, ch ∈ cs -> ch <> c).
  { intros ch Hch ->. by apply (Hne c Hch). }
  simpl. destruct (d !! c_filename c) as [b|] eqn:Hdc; [case_decide as Hsz|].
  - destruct (IH d Hnd) as (Hkeep & Hsub & Hspec).
    split; [|split].
    + intros k Hk. rewrite ?fmap_cons in Hk.
      apply not_elem_of_cons in Hk as [_ Hk]. by apply Hkeep.
    + intros j Hj. apply elem_of_cons. right. by apply Hsub.
    + intros ch Hch. apply elem_of_cons in Hch as [->|Hch].
      * rewrite Hdc, decide_True by done. split.
        -- rewrite Hkeep by done. done.
        -- intros Hin. apply list_elem_of_fmap in Hin as (j & Heq & Hj).
           apply Hsub in Hj. rewrite <- Heq in Hj. by apply (Hnotin c Hj).
      * by apply Hspec.
  - destruct (IH (delete (c_filename c) d) Hnd) as (Hkeep & Hsub & Hspec).
    destruct (resume_check urls cs (delete (c_filename c) d))
      as [d' jobs] eqn:Hr. simpl in *.
    split; [|split].
    + intros k Hk. rewrite ?fmap_cons in Hk.
      apply not_elem_of_cons in Hk as [Hkc Hk].
      rewrite Hkeep by done. by apply lookup_delete_ne.
    + intros j Hj. apply elem_of_cons in Hj as [->|Hj].
      * apply elem_of_cons. by left.
      * apply elem_of_cons. right. by apply Hsub.
    + intros ch Hch. apply elem_of_cons in Hch as [->|Hch].
      * rewrite Hdc, decide_False by done. split.
        -- rewrite Hkeep by done. apply lookup_delete_eq.
        -- apply elem_of_cons. by left.
      * specialize (Hspec ch Hch).
        rewrite lookup_delete_ne in Hspec by (apply not_eq_sym, Hne, Hch).
        destruct (d !! c_filename ch) as [b'|]; [case_decide|].
        -- destruct Hspec as [Hl Hj]. split; [done|].
           rewrite ?fmap_cons. apply not_elem_of_cons. split; [|done].
           simpl. by apply Hnotin.
        -- destruct Hspec as [Hl Hj]. split; [done|].
           apply elem_of_cons. by right.
        -- destruct Hspec as [Hl Hj]. split; [done|].
           apply elem_of_cons. by right.
  - destruct (IH d Hnd) as (Hkeep & Hsub & Hspec).
    destruct (resume_check urls cs d) as [d' jobs] eqn:Hr. simpl in *.
    split; [|split].
    + intros k Hk. rewrite ?fmap_cons in Hk.
      apply not_elem_of_cons in Hk as [_ Hk]. by apply Hkeep.
    + intros j Hj. apply elem_of_cons in Hj as [->|Hj].
      * apply elem_of_cons. by left.
      * apply elem_of_cons. right. by apply Hsub.
    + intros ch Hch. apply elem_of_cons in Hch as [->|Hch].
      * rewrite Hdc. split.
        -- rewrite Hkeep by done. done.
        -- apply elem_of_cons. by left.
      * specialize (Hspec ch Hch).
        destruct (d !! c_filename ch) as [b'|]; [case_decide|].
        -- destruct Hspec as [Hl Hj]. split; [done|].
           rewrite ?fmap_cons. apply not_elem_of_cons. split; [|done].
           simpl. by apply Hnotin.
        -- destruct Hspec as [Hl Hj]. split; [done|].
           apply elem_of_cons. by right.
        -- destruct Hspec as [Hl Hj]. split; [done|].
           apply elem_of_cons. by right.
Qed.



(** C10: the resume check removes a part file whose size differs from
    the planned chunk size and submits that chunk; every chunk it does
    not submit still has its part file on disk, of exactly the planned
    size. *)
Theorem resume_check_cleans (urls : list string) (cs : list chunk) (d : fs) :
  NoDup (c_filename <$> cs) ->
  forall c, c ∈ cs ->
  (forall b, d !! c_filename c = Some b -> Z.of_nat (length b) <> c_size c ->
     fst (resume_check urls cs d) !! c_filename c = None /\
     (pick_url urls c, c) ∈ snd (resume_check urls cs d)) /\
  (c ∉ snd <$> snd (resume_check urls cs d) ->
     exists b, fst (resume_check urls cs d) !! c_filename c = Some b /\
               Z.of_nat (length b) = c_size c).
Proof.
  intros Hnd c Hc.
  destruct (resume_check_spec urls cs d Hnd) as (_ & _ & Hspec).
  specialize (Hspec c Hc). split.
  - intros b Hb Hsz. rewrite Hb, decide_False in Hspec by done. exact Hspec.
  - intros Hnot. destruct (d !! c_filename c) as [b|]; [case_decide|].
    + exists b. split; [apply Hspec | done].
    + exfalso. apply Hnot. apply list_elem_of_fmap.
      exists (pick_url urls c, c). split; [done | apply Hspec].
    + exfalso. apply Hnot. apply list_elem_of_fmap.
      exists (pick_url urls c, c). split; [done | apply Hspec].
Qed.

Lemma resume_check_cleans_witness :
  let c0 := plan_chunk "out" 1 1 0 in
  let d : fs := <["tmp/out.part000" := [Byte.x05; Byte.x06]]> ∅ in
  NoDup (c_filename <$> [c0]) /\
  fst (resume_check ["u"] [c0] d) !! "tmp/out.part000" = None.
Proof.
  cbn zeta.
  assert (H1 : NoDup (c_filename <$> [plan_chunk "out" 1 1 0]))
    by (simpl; apply NoDup_singleton).
  split; [exact H1|].
  refine (proj1 (proj1 (resume_check_cleans ["u"] [plan_chunk "out" 1 1 0] _ H1
    (plan_chunk "out" 1 1 0) _) [Byte.x05; Byte.x06] _ _)).
  - apply elem_of_cons. by left.
  - reflexivity.
  - discriminate.
Defined.

(* ================================================================== *)
(** * Further properties of the code *)

(** ** File info *)

(** [get_file_info] wraps every exception of its body in [K2SError], the
    [FileNotFoundError] for an unavailable file included. So step 1 of
    [start] never takes its "File not found" branch, and an unavailable
    file stops the session through the generic error branch. *)
Theorem file_info_not_found_unreachable (fn : option string) (r : option files_info) :
  start_file_info fn r <> StepNotFound /\
  (get_file_info_body r = InfoFileNotFound ->
     get_file_info r = InfoK2SError /\ start_file_info None r = StepInfoError).
Proof.
  assert (Hname : forall e, get_name r = inl e -> e = InfoK2SError).
  { unfold get_name. destruct (get_file_info r) as [f| |] eqn:Hi.
    - destruct (f_name f); [case_decide|]; discriminate.
    - intros e [= <-]. done.
    - unfold get_file_info in Hi. destruct (get_file_info_body r); discriminate. }
  split.
  - unfold start_file_info.
    destruct fn as [n|]; [case_decide|]; try discriminate;
      destruct (get_name r) as [e|n'] eqn:Hg; try discriminate;
      rewrite (Hname e eq_refl); discriminate.
  - intros Hbody. unfold get_file_info. rewrite Hbody. split; [done|].
    unfold start_file_info, get_name, get_file_info. rewrite Hbody. done.
Qed.

Lemma file_info_not_found_unreachable_witness :
  let r := Some {| fi_status := Some "success";
                   fi_files := [{| f_name := Some "a.bin";
                                   f_is_available := Some false |}] |} in
  get_file_info_body r = InfoFileNotFound /\ start_file_info None r = StepInfoError.
Proof.
  cbn zeta. split; [reflexivity|].
  apply (proj2 (file_info_not_found_unreachable None _)). reflexivity.
Defined.

(** ** Round-robin URL choice *)

Lemma pick_url_elem (urls : list string) (c : chunk) :
  urls <> [] -> pick_url urls c ∈ urls.
Proof.
  intros Hne. unfold pick_url. apply list_elem_of_In, nth_In.
  destruct urls as [|u us]; [done|].
  assert (Hlen : 0 < Z.of_nat (length (u :: us))) by (simpl; lia).
  pose proof (Z.mod_pos_bound (c_id c) _ Hlen). lia.
Qed.

(** Every job the resume check submits downloads from one of the
    acquired URLs, [download_urls[chunk['id'] % len(download_urls)]]. *)
Theorem resume_check_urls_acquired (urls : list string) (cs : list chunk) (d : fs) :
  urls <> [] -> forall j, j ∈ snd (resume_check urls cs d) -> fst j ∈ urls.
Proof.
  intros Hne. revert d. induction cs as [|c cs IH]; intros d j Hj; simpl in Hj.
  { inversion Hj. }
  destruct (d !! c_filename c) as [b|]; [case_decide|].
  - by apply (IH d).
  - destruct (resume_check urls cs (delete (c_filename c) d)) as [d' jobs] eqn:Hr.
    simpl in Hj. apply elem_of_cons in Hj as [->|Hj]; [by apply pick_url_elem|].
    apply (IH (delete (c_filename c) d)). by rewrite Hr.
  - destruct (resume_check urls cs d) as [d' jobs] eqn:Hr.
    simpl in Hj. apply elem_of_cons in Hj as [->|Hj]; [by apply pick_url_elem|].
    apply (IH d). by rewrite Hr.
Qed.

Lemma resume_check_urls_acquired_witness :
  ["u1"; "u2"] <> [] /\
  snd (resume_check ["u1"; "u2"] [plan_chunk "out" 1 1 0] ∅) = [("u1", plan_chunk "out" 1 1 0)] /\
  "u1" ∈ ["u1"; "u2"].
Proof.
  split; [discriminate|]. split; [reflexivity|].
  refine (resume_check_urls_acquired ["u1"; "u2"] [plan_chunk "out" 1 1 0] ∅
            _ ("u1", plan_chunk "out" 1 1 0) _); [discriminate|].
  simpl. apply elem_of_cons. by left.
Defined.

(** ** Chunk download outcomes *)

Lemma download_loop_ended_iff (get : nat -> attempt_outcome) (l : nat) :
  forall a, (a + l = 5)%nat ->
  (snd (download_loop get a l) = DlLoopEnded <->
   l = O \/ ((forall k, (a <= k < 4)%nat -> retried (get k) = true) /\
             rate_limited_outcome (get 4%nat) = true)).
Proof.
  induction l as [|l IH]; intros a Ha; simpl.
  { split; [by left | done]. }
  destruct (get a) as [data|code| |partial] eqn:Hg.
  - simpl. split; [discriminate|]. intros [?|[Hk Hrl]]; [lia|].
    destruct (decide (a = 4)%nat) as [->|Hne].
    + rewrite Hg in Hrl. discriminate.
    + specialize (Hk a ltac:(lia)). rewrite Hg in Hk. discriminate.
  - destruct (is_rate_limited code) eqn:Hrl.
    + destruct (download_loop get (S a) l) as [tr r] eqn:Hrun. simpl.
      specialize (IH (S a) ltac:(lia)). rewrite Hrun in IH. simpl in IH.
      rewrite IH. split.
      * intros [->|[Hk Hrl4]].
        -- right. assert (a = 4)%nat as -> by lia. split; [lia|].
           by rewrite Hg.
        -- right. split; [|done]. intros k Hk'.
           destruct (decide (k = a)) as [->|]; [by rewrite Hg|]. apply Hk. lia.
      * intros [?|[Hk Hrl4]]; [lia|].
        destruct (decide (l = O)) as [->|Hl]; [by left|]. right.
        split; [|done]. intros k Hk'. apply Hk. lia.
    + simpl. split; [discriminate|]. intros [?|[Hk Hrl4]]; [lia|].
      destruct (decide (a = 4)%nat) as [->|Hne].
      * rewrite Hg in Hrl4. simpl in Hrl4. congruence.
      * specialize (Hk a ltac:(lia)). rewrite Hg in Hk. simpl in Hk. congruence.
  - case_decide as Hlast.
    + simpl. split; [discriminate|]. intros [?|[Hk Hrl4]]; [lia|].
      unfold max_retries in Hlast. simpl in Hlast. subst a.
      rewrite Hg in Hrl4. discriminate.
    + destruct (download_loop get (S a) l) as [tr r] eqn:Hrun. simpl.
      unfold max_retries in Hlast. simpl in Hlast.
      specialize (IH (S a) ltac:(lia)). rewrite Hrun in IH. simpl in IH.
      rewrite IH. split.
      * intros [->|[Hk Hrl4]]; [lia|]. right. split; [|done].
        intros k Hk'. destruct (decide (k = a)) as [->|]; [by rewrite Hg|].
        apply Hk. lia.
      * intros [?|[Hk Hrl4]]; [lia|]. right. split; [|done].
        intros k Hk'. apply Hk. lia.
  - case_decide as Hlast.
    + simpl. split; [discriminate|]. intros [?|[Hk Hrl4]]; [lia|].
      unfold max_retries in Hlast. simpl in Hlast. subst a.
      rewrite Hg in Hrl4. discriminate.
    + destruct (download_loop get (S a) l) as [tr r] eqn:Hrun. simpl.
      unfold max_retries in Hlast. simpl in Hlast.
      specialize (IH (S a) ltac:(lia)). rewrite Hrun in IH. simpl in IH.
      rewrite IH. split.
      * intros [->|[Hk Hrl4]]; [lia|]. right. split; [|done].
        intros k Hk'. destruct (decide (k = a)) as [->|]; [by rewrite Hg|].
        apply Hk. lia.
      * intros [?|[Hk Hrl4]]; [lia|]. right. split; [|done].
        intros k Hk'. apply Hk. lia.
Qed.

Lemma download_loop_ended_gets (get : nat -> attempt_outcome) (l : nat) :
  forall a, snd (download_loop get a l) = DlLoopEnded ->
  gets (fst (download_loop get a l)) = seq a l.
Proof.
  induction l as [|l IH]; intros a; simpl; [done|]. specialize (IH (S a)).
  destruct (get a); simpl; repeat (case_match || case_decide); simplify_eq/=;
    intros Hr; try discriminate; by rewrite IH.
Qed.

(** The part file after a run: what the last attempt that opened it
    wrote. *)
Lemma download_loop_written (get : nat -> attempt_outcome) (l : nat) :
  forall a, part_written (fst (download_loop get a l)) =
    last (omap (fun k => stream_write (get k)) (gets (fst (download_loop get a l)))).
Proof.
  induction l as [|l IH]; intros a; simpl; [done|]. specialize (IH (S a)).
  destruct (get a) as [data|code| |partial] eqn:Hg; simpl; rewrite ?Hg; simpl;
    repeat (case_match || case_decide); simplify_eq/=; try done;
    rewrite ?Hg; simpl; rewrite ?last_cons, <- ?IH; done.
Qed.

Lemma download_loop_done_written (get : nat -> attempt_outcome) (l : nat) :
  forall a data, snd (download_loop get a l) = DlDone data ->
  part_written (fst (download_loop get a l)) = Some data.
Proof.
  induction l as [|l IH]; intros a data; simpl; [discriminate|].
  specialize (IH (S a) data).
  destruct (get a) as [data'|code| |partial]; simpl;
    repeat (case_match || case_decide); simplify_eq/=; intros Hr;
    try discriminate; try (by injection Hr as ->); rewrite ?IH; done.
Qed.

(** [_download_chunk] returns without raising exactly when attempts 0 to
    3 each get a rate-limited response or another exception (before or
    during the streaming of the body), and attempt 4 gets a rate-limited
    response: the [for] loop then runs out and the chunk's failure goes
    unreported. The part file is then left as the last of attempts 0 to
    3 that got a 2xx response wrote it before its stream failed, and is
    untouched when none did. *)
Theorem download_chunk_silent_end (get : nat -> attempt_outcome) :
  (snd (download_chunk get) = DlLoopEnded <->
   (forall k, (k < 4)%nat -> retried (get k) = true) /\
   rate_limited_outcome (get 4%nat) = true) /\
  (snd (download_chunk get) = DlLoopEnded ->
   part_written (fst (download_chunk get)) =
     last (omap (fun k => stream_write (get k)) [0; 1; 2; 3]%nat)).
Proof.
  assert (Hiff : snd (download_chunk get) = DlLoopEnded <->
   (forall k, (k < 4)%nat -> retried (get k) = true) /\
   rate_limited_outcome (get 4%nat) = true).
  { unfold download_chunk. rewrite (download_loop_ended_iff get max_retries 0)
      by reflexivity.
    unfold max_retries. split.
    - intros [?|[Hk Hrl]]; [discriminate|]. split; [|done].
      intros k Hk'. apply Hk. lia.
    - intros [Hk Hrl]. right. split; [|done]. intros k Hk'. apply Hk. lia. }
  split; [exact Hiff|]. intros Hend.
  destruct (proj1 Hiff Hend) as [_ Hrl].
  unfold download_chunk in *. rewrite download_loop_written.
  rewrite (download_loop_ended_gets get max_retries 0 Hend).
  simpl. destruct (get 4%nat) as [|code| |]; try discriminate.
  simpl. by repeat case_match.
Qed.

(** An instance of the silent end: attempt 0 gets a 2xx response whose
    stream breaks after [[1; 2]] was written, attempts 1 to 4 are rate
    limited. The function returns without raising and the part file
    holds the two bytes. *)
Example download_chunk_partial_part_file :
  let get := fun k : nat =>
    if decide (k = O) then AStreamError [Byte.x01; Byte.x02] else AHttpError 429 in
  snd (download_chunk get) = DlLoopEnded /\
  part_written (fst (download_chunk get)) = Some [Byte.x01; Byte.x02].
Proof. split; reflexivity. Qed.

Lemma download_loop_done_iff (get : nat -> attempt_outcome) (data : bytes) (l : nat) :
  forall a, (a + l = 5)%nat ->
  (snd (download_loop get a l) = DlDone data <->
   exists k, (a <= k < 5)%nat /\ get k = AOk data /\
             forall k', (a <= k' < k)%nat -> retried (get k') = true).
Proof.
  induction l as [|l IH]; intros a Ha; simpl.
  { split; [discriminate|]. intros (k & Hk & _). lia. }
  assert (Hfirst : forall k, (a <= k < 5)%nat ->
            (forall k', (a <= k' < k)%nat -> retried (get k') = true) ->
            retried (get a) = false -> k = a).
  { intros k Hk Hbefore Hnot. destruct (decide (k = a)); [done|].
    rewrite Hbefore in Hnot by lia. discriminate. }
  destruct (get a) as [data'|code| |partial] eqn:Hg.
  - simpl. split.
    + intros [= ->]. exists a. split; [lia|]. split; [done|]. intros. lia.
    + intros (k & Hk & Hgk & Hbefore).
      rewrite (Hfirst k Hk Hbefore) in Hgk by done.
      congruence.
  - destruct (is_rate_limited code) eqn:Hrl.
    + destruct (download_loop get (S a) l) as [tr r] eqn:Hrun. simpl.
      specialize (IH (S a) ltac:(lia)). rewrite Hrun in IH. simpl in IH.
      rewrite IH. split.
      * intros (k & Hk & Hgk & Hbefore). exists k. split; [lia|].
        split; [done|]. intros k' Hk'.
        destruct (decide (k' = a)) as [->|]; [by rewrite Hg|]. apply Hbefore. lia.
      * intros (k & Hk & Hgk & Hbefore).
        destruct (decide (k = a)) as [->|Hne]; [congruence|].
        exists k. split; [lia|]. split; [done|]. intros k' Hk'. apply Hbefore. lia.
    + simpl. split; [discriminate|]. intros (k & Hk & Hgk & Hbefore).
      rewrite (Hfirst k Hk Hbefore) in Hgk by (simpl; try rewrite Hrl; done).
      congruence.
  - case_decide as Hlast.
    + simpl. split; [discriminate|]. intros (k & Hk & Hgk & Hbefore).
      unfold max_retries in Hlast. simpl in Hlast. subst a.
      assert (k = 4)%nat as -> by lia. congruence.
    + destruct (download_loop get (S a) l) as [tr r] eqn:Hrun. simpl.
      unfold max_retries in Hlast. simpl in Hlast.
      specialize (IH (S a) ltac:(lia)). rewrite Hrun in IH. simpl in IH.
      rewrite IH. split.
      * intros (k & Hk & Hgk & Hbefore). exists k. split; [lia|].
        split; [done|]. intros k' Hk'.
        destruct (decide (k' = a)) as [->|]; [by rewrite Hg|]. apply Hbefore. lia.
      * intros (k & Hk & Hgk & Hbefore).
        destruct (decide (k = a)) as [->|Hne]; [congruence|].
        exists k. split; [lia|]. split; [done|]. intros k' Hk'. apply Hbefore. lia.
  - case_decide as Hlast.
    + simpl. split; [discriminate|]. intros (k & Hk & Hgk & Hbefore).
      unfold max_retries in Hlast. simpl in Hlast. subst a.
      assert (k = 4)%nat as -> by lia. congruence.
    + destruct (download_loop get (S a) l) as [tr r] eqn:Hrun. simpl.
      unfold max_retries in Hlast. simpl in Hlast.
      specialize (IH (S a) ltac:(lia)). rewrite Hrun in IH. simpl in IH.
      rewrite IH. split.
      * intros (k & Hk & Hgk & Hbefore). exists k. split; [lia|].
        split; [done|]. intros k' Hk'.
        destruct (decide (k' = a)) as [->|]; [by rewrite Hg|]. apply Hbefore. lia.
      * intros (k & Hk & Hgk & Hbefore).
        destruct (decide (k = a)) as [->|Hne]; [congruence|].
        exists k. split; [lia|]. split; [done|]. intros k' Hk'. apply Hbefore. lia.
Qed.

(** [_download_chunk] returns normally with [data] exactly when one of
    the attempts 0 to 4 receives [data] and every earlier attempt got a
    rate-limited response or another exception (before or during the
    streaming of the body). The part file then holds exactly [data]: the
    last ['wb'] open replaces what failed attempts wrote. *)
Theorem download_chunk_done_iff (get : nat -> attempt_outcome) (data : bytes) :
  (snd (download_chunk get) = DlDone data <->
   exists k, (k < 5)%nat /\ get k = AOk data /\
             forall k', (k' < k)%nat -> retried (get k') = true) /\
  (snd (download_chunk get) = DlDone data ->
   part_written (fst (download_chunk get)) = Some data).
Proof.
  split; [|apply download_loop_done_written].
  unfold download_chunk. rewrite (download_loop_done_iff get data max_retries 0)
    by reflexivity.
  split; intros (k & Hk & Hg & Hb); exists k; (split; [lia|]); (split; [done|]);
    intros k' Hk'; apply Hb; lia.
Qed.

(** After [_download_chunk], however it ends, the part file holds what
    the last attempt that got a 2xx response wrote to it: the whole body,
    or the part streamed before an exception. It is untouched when no
    attempt got that far. *)
Theorem download_chunk_part_file (get : nat -> attempt_outcome) :
  part_written (fst (download_chunk get)) =
    last (omap (fun k => stream_write (get k)) (gets (fst (download_chunk get)))).
Proof. apply download_loop_written. Qed.

(** ** Proxy list file *)

Lemma string_app_nil_l (a : string) : String.append "" a = a.
Proof. reflexivity. Qed.

Lemma string_app_cons (c : ascii) (a b : string) :
  String.append (String c a) b = String c (String.append a b).
Proof. reflexivity. Qed.

Lemma string_app_assoc (a b c : string) :
  String.append (String.append a b) c = String.append a (String.append b c).
Proof.
  induction a as [|x a IH]; [done|]. by rewrite !string_app_cons, IH.
Qed.

Lemma string_app_nil_r (a : string) : String.append a "" = a.
Proof. induction a as [|x a IH]; [done|]. by rewrite string_app_cons, IH. Qed.

Lemma no_linebreak_cons (c : ascii) (r : string) :
  no_linebreak (String c r) <-> is_linebreak c = false /\ no_linebreak r.
Proof. done. Qed.

Lemma not_cr_of_no_linebreak (c : ascii) :
  is_linebreak c = false -> c <> "013"%char.
Proof. intros H ->. discriminate. Qed.

Lemma splitlines_go_app (p s cur : string) :
  no_linebreak p ->
  splitlines_go (String.append p s) cur = splitlines_go s (String.append cur p).
Proof.
  revert cur. induction p as [|c p IH]; intros cur Hp.
  { by rewrite string_app_nil_l, string_app_nil_r. }
  rewrite string_app_cons. simpl.
  apply no_linebreak_cons in Hp as [Hc Hp].
  rewrite decide_False by (by apply not_cr_of_no_linebreak). rewrite Hc.
  rewrite IH by done. rewrite string_app_assoc. done.
Qed.

Lemma universal_newlines_app (p s : string) :
  no_linebreak p ->
  universal_newlines (String.append p s) = String.append p (universal_newlines s).
Proof.
  induction p as [|c p IH]; intros Hp; [done|].
  rewrite !string_app_cons. simpl.
  apply no_linebreak_cons in Hp as [Hc Hp].
  rewrite decide_False by (by apply not_cr_of_no_linebreak). by rewrite IH.
Qed.

Lemma load_save_roundtrip (ps : list string) :
  Forall (fun p => p <> "" /\ strip p = p /\ no_linebreak p) ps ->
  load_proxies (Some (save_proxies ps)) = ps.
Proof.
  intros Hps. unfold load_proxies, save_proxies.
  assert (Hsplit : splitlines (universal_newlines
            (String.concat (String "010"%char EmptyString) ps)) = ps).
  { unfold splitlines. induction Hps as [|p ps [Hne [_ Hnb]] Hps IH]; [done|].
    destruct ps as [|q ps].
    - simpl. rewrite <- (string_app_nil_r p) at 1.
      rewrite universal_newlines_app, splitlines_go_app by done. simpl.
      rewrite string_app_nil_l. by rewrite decide_False.
    - change (String.concat (String "010"%char EmptyString) (p :: q :: ps))
        with (String.append p (String.append (String "010"%char EmptyString)
                (String.concat (String "010"%char EmptyString) (q :: ps)))).
      rewrite universal_newlines_app by done.
      rewrite string_app_cons, string_app_nil_l. simpl.
      rewrite splitlines_go_app by done. rewrite string_app_nil_l. simpl.
      f_equal. exact IH. }
  rewrite Hsplit. clear Hsplit.
  induction Hps as [|p ps [Hne [Hs _]] Hps IH]; [done|].
  rewrite fmap_cons, filter_cons, Hs, decide_True by done. by rewrite IH.
Qed.

(** Saving a list of proxies and loading the file back gives the same
    list, for proxies that are non-empty, carry no surrounding whitespace
    and contain no line boundary. *)
Theorem load_save_proxies (ps : list string) :
  Forall (fun p => p <> "" /\ strip p = p /\ no_linebreak p) ps ->
  load_proxies (Some (save_proxies ps)) = ps.
Proof. apply load_save_roundtrip. Qed.

Lemma load_save_proxies_witness :
  Forall (fun p => p <> "" /\ strip p = p /\ no_linebreak p) ["1.2.3.4:80"; "5.6.7.8:3128"] /\
  load_proxies (Some (save_proxies ["1.2.3.4:80"; "5.6.7.8:3128"])) = ["1.2.3.4:80"; "5.6.7.8:3128"].
Proof.
  assert (H : Forall (fun p => p <> "" /\ strip p = p /\ no_linebreak p)
                ["1.2.3.4:80"; "5.6.7.8:3128"]).
  { repeat constructor; try discriminate. }
  split; [exact H|]. exact (load_save_proxies _ H).
Defined.

Lemma no_linebreak_app (a b : string) :
  no_linebreak a -> no_linebreak b -> no_linebreak (String.append a b).
Proof.
  induction a as [|c a IH]; intros Ha Hb; [done|].
  rewrite string_app_cons. destruct Ha as [Hc Ha]. split; [done|]. by apply IH.
Qed.

Lemma splitlines_go_no_linebreak (s cur : string) :
  no_linebreak cur -> Forall no_linebreak (splitlines_go s cur).
Proof.
  remember (String.length s) as n eqn:Hn.
  assert (Hle : (String.length s <= n)%nat) by lia. clear Hn.
  revert s cur Hle. induction n as [|n IH]; intros s cur Hle Hcur.
  { destruct s; simpl in Hle; [|lia]. simpl. case_decide; repeat constructor; done. }
  destruct s as [|c rest]; simpl in Hle.
  { simpl. case_decide; repeat constructor; done. }
  simpl. case_decide as Hcr.
  - destruct rest as [|d rest'].
    + by repeat constructor.
    + simpl in Hle. case_decide.
      * constructor; [done|]. apply IH; [lia|done].
      * constructor; [done|]. apply IH; [simpl; lia|done].
  - destruct (is_linebreak c) eqn:Hc.
    + constructor; [done|]. apply IH; [lia|done].
    + apply IH; [lia|]. apply no_linebreak_app; [done|]. by split.
Qed.

Lemma lstrip_no_linebreak (s : string) : no_linebreak s -> no_linebreak (lstrip s).
Proof.
  induction s as [|c r IH]; intros Hs; [done|]. simpl.
  destruct (is_space c); [apply IH; apply Hs | done].
Qed.

Lemma rstrip_no_linebreak (s : string) : no_linebreak s -> no_linebreak (rstrip s).
Proof.
  induction s as [|c r IH]; [done|]. intros [Hc Hr]. simpl.
  destruct (is_space c && bool_decide (rstrip r = "")); [done|].
  split; [done|]. by apply IH.
Qed.

Lemma lstrip_idem (s : string) : lstrip (lstrip s) = lstrip s.
Proof.
  induction s as [|c r IH]; [done|]. simpl.
  destruct (is_space c) eqn:Hc; [done|]. simpl. by rewrite Hc.
Qed.

Lemma rstrip_idem (s : string) : rstrip (rstrip s) = rstrip s.
Proof.
  induction s as [|c r IH]; [done|]. simpl.
  destruct (is_space c && bool_decide (rstrip r = "")) eqn:Hb; [done|].
  simpl. by rewrite IH, Hb.
Qed.

Lemma lstrip_rstrip_lstrip (s : string) :
  lstrip (rstrip (lstrip s)) = rstrip (lstrip s).
Proof.
  induction s as [|c r IH]; [done|]. simpl.
  destruct (is_space c) eqn:Hc; [done|]. simpl. rewrite Hc. simpl. by rewrite Hc.
Qed.

Lemma strip_idem (s : string) : strip (strip s) = strip s.
Proof. unfold strip. by rewrite lstrip_rstrip_lstrip, rstrip_idem. Qed.

Lemma load_proxies_elem (f : option string) (p : string) :
  p ∈ load_proxies f -> p <> "" /\ strip p = p /\ no_linebreak p.
Proof.
  destruct f as [content|]; simpl; [|by rewrite elem_of_nil].
  rewrite list_elem_of_filter, list_elem_of_fmap.
  intros [Hne (q & -> & Hq)]. split; [done|]. split; [apply strip_idem|].
  unfold strip. apply rstrip_no_linebreak, lstrip_no_linebreak.
  pose proof (splitlines_go_no_linebreak (universal_newlines content) "" I) as Hall.
  rewrite Forall_forall in Hall. apply Hall. exact Hq.
Qed.

(** Every proxy read from the file is non-empty, has no surrounding
    whitespace and no line boundary; so writing the loaded list back and
    reading it again gives the same list. *)
Theorem load_proxies_normal_form (f : option string) :
  (forall p, p ∈ load_proxies f -> p <> "" /\ strip p = p /\ no_linebreak p) /\
  load_proxies (Some (save_proxies (load_proxies f))) = load_proxies f.
Proof.
  split; [intros p; apply (load_proxies_elem f)|]. apply load_save_roundtrip.
  apply Forall_forall. intros p Hp. by apply (load_proxies_elem f).
Qed.

(** ** Proxy validation quota *)

Lemma validate_go_take (done : list (string * bool)) (working : list string) :
  (length working < 50)%nat ->
  validate_go done working =
  take 50 (working ++ (fst <$> filter (fun pr => pr.2 = true) done)).
Proof.
  revert working. induction done as [|[proxy ok] rest IH]; intros working Hlt.
  { simpl. rewrite app_nil_r, take_ge by lia. done. }
  assert (E : forall X, working ++ proxy :: X = (working ++ [proxy]) ++ X)
    by (intros; by rewrite <- app_assoc).
  simpl. destruct ok.
  - rewrite filter_cons_True by done. rewrite fmap_cons. simpl.
    rewrite (E (fst <$> filter (fun pr => pr.2 = true) rest)).
    case_decide as Hq.
    + rewrite length_app in Hq. simpl in Hq.
      replace 50%nat with (length (working ++ [proxy])) by (rewrite length_app; simpl; lia).
      by rewrite take_app_length.
    + rewrite IH; [done|]. lia.
  - rewrite filter_cons_False by done. by apply IH.
Qed.

(** [_validate_proxies] returns, in the order the checks complete, the
    first 50 proxies whose check succeeded (all of them when fewer pass):
    it never returns more than 50 proxies, and only ones that passed. *)
Theorem validate_proxies_first_50 (done : list (string * bool)) :
  validate_proxies done = take 50 (fst <$> filter (fun pr => pr.2 = true) done) /\
  (length (validate_proxies done) <= 50)%nat.
Proof.
  unfold validate_proxies. rewrite validate_go_take by (simpl; lia).
  simpl. split; [done|]. rewrite length_take. lia.
Qed.

(** ** Part file names *)

Lemma zeros_succ (k : nat) :
  String.concat "" (List.repeat "0" (S k)) =
  String "0"%char (String.concat "" (List.repeat "0" k)).
Proof. destruct k; reflexivity. Qed.

Lemma drop_zeros_padding (k : nat) (s : string) :
  drop_zeros (String.append (String.concat "" (List.repeat "0" k)) s) = drop_zeros s.
Proof. induction k as [|k IH]; [done|]. by rewrite zeros_succ, string_app_cons. Qed.

Lemma pretty_N_go_head (x : N) (s : string) :
  (0 < x)%N -> exists c t, pretty_N_go x s = String c t /\ c <> "0"%char.
Proof.
  revert s. induction (N.lt_wf_0 x) as [x _ IH]; intros s Hx.
  assert (x < 10 \/ 10 <= x)%N as [Hlt|Hge] by lia.
  - rewrite pretty_N_go_step by done.
    rewrite N.div_small by done. rewrite pretty_N_go_0, N.mod_small by done.
    eexists _, _. split; [done|].
    assert (x = 1 \/ x = 2 \/ x = 3 \/ x = 4 \/ x = 5 \/ x = 6
          \/ x = 7 \/ x = 8 \/ x = 9)%N as Hd by lia.
    repeat destruct Hd as [-> | Hd]; try discriminate. subst. discriminate.
  - rewrite pretty_N_go_step by lia. apply IH.
    + apply N.div_lt; lia.
    + apply N.div_str_pos. lia.
Qed.

Lemma drop_zeros_pretty (n : N) :
  drop_zeros (pretty n) = if decide (n = 0%N) then "" else pretty n.
Proof.
  unfold pretty, pretty_N. case_decide; [done|].
  destruct (pretty_N_go_head n "") as (c & t & -> & Hc); [lia|]. simpl.
  destruct c as [[] [] [] [] [] [] [] []]; try done; by destruct Hc.
Qed.

Lemma pretty_N_nonempty (n : N) : pretty n <> "".
Proof.
  unfold pretty, pretty_N. case_decide; [done|].
  destruct (pretty_N_go_head n "") as (c & t & -> & _); [lia|done].
Qed.

Lemma zfill3_pretty_inj (a b : N) :
  zfill3 (pretty a) = zfill3 (pretty b) -> a = b.
Proof.
  intros H. apply (f_equal drop_zeros) in H. unfold zfill3 in H.
  rewrite !drop_zeros_padding, !drop_zeros_pretty in H.
  pose proof (pretty_N_nonempty a). pose proof (pretty_N_nonempty b).
  do 2 case_decide; subst; try done. by apply (inj pretty).
Qed.

Lemma string_length_app (a b : string) :
  String.length (String.append a b) = (String.length a + String.length b)%nat.
Proof. induction a as [|c a IH]; [done|]. rewrite string_app_cons. simpl. by rewrite IH. Qed.

Lemma is_abs_part (f x : string) :
  is_abs (String.append f (String.append ".part" x)) = is_abs f.
Proof. by destruct f. Qed.

Lemma part_name_inj (f : string) (i j : Z) :
  0 <= i -> 0 <= j -> part_name f i = part_name f j -> i = j.
Proof.
  intros Hi Hj H. unfold part_name, path_join in H.
  rewrite !is_abs_part in H. destruct (is_abs f).
  - apply (inj (String.append f)), (inj (String.append ".part")) in H.
    apply zfill3_pretty_inj in H. lia.
  - apply (inj (String.append "tmp")), (inj (String.append "/")),
      (inj (String.append f)), (inj (String.append ".part")) in H.
    apply zfill3_pretty_inj in H. lia.
Qed.

Lemma part_name_longer (f : string) (i : Z) :
  (String.length f < String.length (part_name f i))%nat.
Proof.
  unfold part_name, path_join. rewrite is_abs_part.
  destruct (is_abs f); rewrite !string_length_app; simpl; lia.
Qed.

Lemma plan_filenames (f : string) (T s : Z) (cs : list chunk) :
  plan f T s = Planned cs ->
  NoDup (c_filename <$> cs) /\ forall c, c ∈ cs -> c_filename c <> f.
Proof.
  intros Hp. unfold plan in Hp. case_decide; [done|]. injection Hp as <-.
  split.
  - rewrite <- list_fmap_compose. apply NoDup_fmap_2; [|apply NoDup_seq].
    intros i j Hij. simpl in Hij. apply part_name_inj in Hij; lia.
  - intros c Hc. apply list_elem_of_fmap in Hc as (i & -> & _). simpl.
    intros Heq. pose proof (part_name_longer f (Z.of_nat i)) as Hl.
    rewrite Heq in Hl. lia.
Qed.

(** The chunks of a plan are written to pairwise distinct part files,
    none of which is the destination file itself; so the concurrent
    downloads never write to the same file. *)
Theorem plan_part_names_distinct (f : string) (T s : Z) (cs : list chunk) :
  plan f T s = Planned cs ->
  NoDup (c_filename <$> cs) /\ forall c, c ∈ cs -> c_filename c <> f.
Proof. apply plan_filenames. Qed.

Lemma plan_part_names_distinct_witness :
  plan "movie.mkv" 25 10 = Planned
    [plan_chunk "movie.mkv" 25 10 0; plan_chunk "movie.mkv" 25 10 1;
     plan_chunk "movie.mkv" 25 10 2] /\
  NoDup (c_filename <$> [plan_chunk "movie.mkv" 25 10 0; plan_chunk "movie.mkv" 25 10 1;
     plan_chunk "movie.mkv" 25 10 2]) /\
  forall c, c ∈ [plan_chunk "movie.mkv" 25 10 0; plan_chunk "movie.mkv" 25 10 1;
     plan_chunk "movie.mkv" 25 10 2] -> c_filename c <> "movie.mkv".
Proof.
  assert (Hp : plan "movie.mkv" 25 10 = Planned
    [plan_chunk "movie.mkv" 25 10 0; plan_chunk "movie.mkv" 25 10 1;
     plan_chunk "movie.mkv" 25 10 2]) by reflexivity.
  split; [exact Hp|]. exact (plan_part_names_distinct _ _ _ _ Hp).
Defined.

(** ** Downloading and assembling a planned file *)










(** ** Link acquisition: proxies, waits and URL requests *)

Lemma key_loop_shape ex rf ps :
  forall n ch tr r, key_loop ex rf n ch ps = (tr, r) ->
  exchange_proxies tr `prefix_of` ps /\
  Forall (fun w => w <= 60) (waits tr) /\ (length (waits tr) <= 1)%nat /\
  gen_requests tr = [] /\
  (forall k p, r = LKey k p -> last (exchange_proxies tr) = Some p).
Proof.
  induction ps as [|p ps IH]; intros n ch tr r Hrun; simpl in Hrun.
  { injection Hrun as <- <-. simpl. split; [apply prefix_nil|].
    split; [done|]. split; [lia|]. split; [done|]. by intros. }
  destruct ch as [cd cr], (rf n); simpl in Hrun;
  repeat (case_match || case_decide); simplify_eq/=;
  try (match goal with
       | Hk : key_loop ex rf _ _ ps = _ |- _ =>
         destruct (IH _ _ _ _ Hk) as (Hpre & Hw & Hlen & Hg & Hlast);
         split; [by apply prefix_cons|]; split; [done|]; split; [done|];
         split; [done|]; intros k q ->; by rewrite last_cons, (Hlast k q eq_refl)
       end);
  (split; [apply prefix_cons, prefix_nil|]);
  repeat split; try done; try (intros; simplify_eq; done);
  repeat constructor; lia.
Qed.

Lemma exchange_proxies_app tr1 tr2 :
  exchange_proxies (tr1 ++ tr2) = exchange_proxies tr1 ++ exchange_proxies tr2.
Proof. induction tr1 as [|[] tr1 IH]; simpl; by rewrite ?IH. Qed.

Lemma waits_app tr1 tr2 : waits (tr1 ++ tr2) = waits tr1 ++ waits tr2.
Proof. induction tr1 as [|[] tr1 IH]; simpl; by rewrite ?IH. Qed.

Lemma gen_requests_app tr1 tr2 :
  gen_requests (tr1 ++ tr2) = gen_requests tr1 ++ gen_requests tr2.
Proof. induction tr1 as [|[] tr1 IH]; simpl; by rewrite ?IH. Qed.

Lemma gen_loop_shape gen key p i left :
  exchange_proxies (fst (gen_loop gen key p i left)) = [] /\
  waits (fst (gen_loop gen key p i left)) = [] /\
  gen_requests (fst (gen_loop gen key p i left)) = replicate left p /\
  (length (snd (gen_loop gen key p i left)) <= left)%nat.
Proof.
  revert i. induction left as [|left IH]; intros i; simpl; [repeat split; lia|].
  destruct (IH (S i)) as (He & Hw & Hg & Hl).
  destruct (gen_loop gen key p (S i) left) as [tr urls]. simpl in *.
  split; [done|]. split; [done|]. split; [by rewrite Hg|].
  rewrite length_app. repeat case_match; try case_decide; simpl; lia.
Qed.

(** [generate_download_urls] tries the proxy candidates in order, each at
    most once, whatever the answers (an invalid captcha included), and
    waits at most once, never longer than 60 seconds. *)
Theorem generate_candidates_in_order (pm : option (list string))
    (ex : nat -> option string -> captcha -> exch)
    (rf : nat -> refresh_outcome)
    (gen : nat -> option string -> string -> exch) (count : nat) :
  let tr := fst (generate_download_urls pm ex rf gen count) in
  exchange_proxies tr `prefix_of` candidates pm /\
  Forall (fun w => w <= 60) (waits tr) /\ (length (waits tr) <= 1)%nat.
Proof.
  unfold generate_download_urls.
  destruct (key_loop ex rf 0 (0, 0)%nat (candidates pm)) as [tr r] eqn:Hk.
  destruct (key_loop_shape ex rf _ _ _ _ _ Hk) as (Hpre & Hw & Hlen & _ & _).
  destruct r as [[key|] p|u| |]; simpl; try (split; [done|]; split; [done|]; done).
  case_decide; simpl; [split; [done|]; split; [done|]; done|].
  pose proof (gen_loop_shape gen key p 0 count) as (He & Hw' & _ & _).
  destruct (gen_loop gen key p 0 count) as [tr' urls]. simpl in *.
  rewrite exchange_proxies_app, waits_app, He, Hw', !app_nil_r. auto.
Qed.

(** When [generate_download_urls] returns URLs, either the key exchange
    answered with a direct URL, which is the single URL returned and no
    URL request is made; or a key was obtained through proxy [p], the
    last one tried, and all [count] URL requests go through [p], giving
    at most [count] URLs. *)
Theorem generate_urls_bound_proxy (pm : option (list string))
    (ex : nat -> option string -> captcha -> exch)
    (rf : nat -> refresh_outcome)
    (gen : nat -> option string -> string -> exch) (count : nat)
    (urls : list string) :
  snd (generate_download_urls pm ex rf gen count) = GUrls urls ->
  let tr := fst (generate_download_urls pm ex rf gen count) in
  (gen_requests tr = [] /\ length urls = 1%nat) \/
  (exists p, last (exchange_proxies tr) = Some p /\
     gen_requests tr = replicate count p /\ (length urls <= count)%nat).
Proof.
  unfold generate_download_urls.
  destruct (key_loop ex rf 0 (0, 0)%nat (candidates pm)) as [tr r] eqn:Hk.
  destruct (key_loop_shape ex rf _ _ _ _ _ Hk) as (_ & _ & _ & Hg & Hlast).
  intros Hr. destruct r as [[key|] p|u| |]; simplify_eq/=.
  - case_decide; simplify_eq/=.
    pose proof (gen_loop_shape gen key p 0 count) as (He & _ & Hgr & Hl).
    destruct (gen_loop gen key p 0 count) as [tr' urls']. simplify_eq/=.
    right. exists p.
    rewrite exchange_proxies_app, gen_requests_app, He, app_nil_r.
    split; [by eapply Hlast|]. split; [|done]. by rewrite Hg, Hgr.
  - left. by split.
Qed.

Lemma generate_urls_bound_proxy_witness :
  let ex := fun (_ : nat) (p : option string) (_ : captcha) =>
              if decide (p = Some "p2") then Json (wait_key_resp 30 "k") else Raised in
  let rf := fun (_ : nat) => RefreshOk in
  let gen := fun (_ : nat) (_ : option string) (_ : string) =>
               Json (url_resp "https://dl/1") in
  snd (generate_download_urls (Some ["p1"; "p2"; "p3"]) ex rf gen 2)
    = GUrls ["https://dl/1"; "https://dl/1"] /\
  let tr := fst (generate_download_urls (Some ["p1"; "p2"; "p3"]) ex rf gen 2) in
  (gen_requests tr = [] /\ length ["https://dl/1"; "https://dl/1"] = 1%nat) \/
  (exists p, last (exchange_proxies tr) = Some p /\
     gen_requests tr = replicate 2 p /\
     (length ["https://dl/1"; "https://dl/1"] <= 2)%nat).
Proof.
  intros ex rf gen.
  assert (H : snd (generate_download_urls (Some ["p1"; "p2"; "p3"]) ex rf gen 2)
              = GUrls ["https://dl/1"; "https://dl/1"]) by reflexivity.
  split; [exact H|]. exact (generate_urls_bound_proxy _ _ _ _ _ _ H).
Defined.

(** ** Time slept by the chunk retry loop *)

Lemma download_loop_sleep (get : nat -> attempt_outcome) (left a : nat) :
  0 <= sleep_total (fst (download_loop get a left)) /\
  2 * sleep_total (fst (download_loop get a left))
    <= 5 * Z.of_nat left * (2 * Z.of_nat a + Z.of_nat left + 1).
Proof.
  revert a. induction left as [|left IH]; intros a; simpl; [lia|].
  destruct (IH (S a)) as [H0 H1].
  destruct (download_loop get (S a) left) as [tr r]; simpl in *.
  rewrite ?Nat2Z.inj_succ in *. unfold Z.succ in *.
  pose proof (Nat2Z.is_nonneg a). pose proof (Nat2Z.is_nonneg left).
  remember (Z.of_nat a) as x. remember (Z.of_nat left) as y.
  destruct (get a) as [data|code| |partial]; simpl; [split; nia| | |].
  - destruct (is_rate_limited code); simpl; split; nia.
  - case_decide; simpl; split; nia.
  - case_decide; simpl; split; nia.
Qed.

(** A chunk download sleeps at most 75 seconds in total (5 + 10 + 15 +
    20 + 25, when every attempt is rate limited) before it returns or
    raises. *)
Theorem download_chunk_sleep_bound (get : nat -> attempt_outcome) :
  0 <= sleep_total (fst (download_chunk get)) <= 75.
Proof.
  destruct (download_loop_sleep get max_retries 0) as [H0 H1].
  change (Z.of_nat max_retries) with 5 in H1. change (Z.of_nat 0) with 0 in H1.
  unfold download_chunk. lia.
Qed.

(** ** Chunks submitted by the resume loop *)

Lemma filter_ext_elem {A} (P Q : A -> Prop) `{!forall x, Decision (P x)}
    `{!forall x, Decision (Q x)} (l : list A) :
  (forall x, x ∈ l -> P x <-> Q x) -> filter P l = filter Q l.
Proof.
  induction l as [|x l IH]; intros Hpq; [done|].
  assert (Hx : P x <-> Q x) by (apply Hpq, elem_of_cons; by left).
  assert (Hl : forall y, y ∈ l -> P y <-> Q y)
    by (intros y Hy; apply Hpq, elem_of_cons; by right).
  destruct (decide (P x)) as [Hp|Hp].
  - rewrite (filter_cons_True P) by done.
    rewrite (filter_cons_True Q) by (by apply Hx). by rewrite IH.
  - rewrite (filter_cons_False P) by done.
    rewrite (filter_cons_False Q) by (by rewrite <- Hx). by apply IH.
Qed.

Lemma resume_check_jobs_filter (urls : list string) (cs : list chunk) :
  forall d : fs, NoDup (c_filename <$> cs) ->
  snd (resume_check urls cs d) =
  (fun c => (pick_url urls c, c)) <$> filter (fun c => part_ok d c = false) cs.
Proof.
  induction cs as [|c cs IH]; intros d Hnd; [done|].
  rewrite fmap_cons in Hnd. apply NoDup_cons in Hnd as [Hc Hnd].
  simpl. destruct (d !! c_filename c) as [b|] eqn:Hdc; [case_decide as Hsz|].
  - assert (Hok : part_ok d c = true)
      by (unfold part_ok; rewrite Hdc; by apply bool_decide_eq_true_2).
    rewrite filter_cons_False by (rewrite Hok; discriminate). by apply IH.
  - assert (Hok : part_ok d c = false)
      by (unfold part_ok; rewrite Hdc; by apply bool_decide_eq_false_2).
    rewrite filter_cons_True by done.
    pose proof (IH (delete (c_filename c) d) Hnd) as Hr.
    destruct (resume_check urls cs (delete (c_filename c) d)) as [d' jobs].
    simpl in *. rewrite Hr; rewrite ?fmap_cons. f_equal. f_equal.
    apply filter_ext_elem. intros c' Hc'.
    assert (Hne : c_filename c' <> c_filename c).
    { intros Heq. apply Hc. rewrite <- Heq. apply list_elem_of_fmap; eauto. }
    unfold part_ok. by rewrite lookup_delete_ne by congruence.
  - assert (Hok : part_ok d c = false) by (unfold part_ok; by rewrite Hdc).
    rewrite filter_cons_True by done.
    pose proof (IH d Hnd) as Hr.
    destruct (resume_check urls cs d) as [d' jobs]. simpl in *.
    rewrite Hr; by rewrite ?fmap_cons.
Qed.

(** For a planned file, the resume loop submits exactly the chunks whose
    part file is missing or has a size other than the planned one, once
    each and in plan order, each with its round-robin URL. *)
Theorem resume_submits_incomplete (urls : list string) (f : string) (T s : Z)
    (cs : list chunk) (d : fs) :
  plan f T s = Planned cs ->
  snd (resume_check urls cs d) =
  (fun c => (pick_url urls c, c)) <$> filter (fun c => part_ok d c = false) cs.
Proof.
  intros Hp. apply resume_check_jobs_filter.
  by destruct (plan_filenames f T s cs Hp).
Qed.

Lemma resume_submits_incomplete_witness :
  let cs := [plan_chunk "movie.mkv" 25 10 0; plan_chunk "movie.mkv" 25 10 1;
             plan_chunk "movie.mkv" 25 10 2] in
  let d := <[part_name "movie.mkv" 1 := repeat Byte.x00 10]>
             (<[part_name "movie.mkv" 2 := [Byte.x00]]> ∅) : fs in
  plan "movie.mkv" 25 10 = Planned cs /\
  snd (resume_check ["u1"; "u2"] cs d) =
  (fun c => (pick_url ["u1"; "u2"] c, c)) <$> filter (fun c => part_ok d c = false) cs.
Proof.
  intros cs d.
  assert (Hp : plan "movie.mkv" 25 10 = Planned cs) by reflexivity.
  split; [exact Hp|]. exact (resume_submits_incomplete _ _ _ _ _ d Hp).
Defined.
